(** * fastembed: batching, pipeline driver, worker pool and numeric kernels

    A shallow embedding of the order-preserving batch-embedding pipeline of
    [fastembed/embedding.py], [fastembed/common/utils.py],
    [fastembed/sparse/sparse_text_embedding.py] and
    [fastembed/late_interaction/late_interaction_image_embedding_base.py].

    Python iterators are modelled by the list of items they still have to
    produce; generators by the list of values they yield when drained;
    numpy float arrays by nested lists of real numbers (exact arithmetic
    in place of IEEE rounding); the arrays that [mean_pooling] computes on
    by nested lists of floats that are a finite real, an infinity or
    NaN. *)

From Stdlib Require Import Reals Lra.
From stdpp Require Import base list gmap strings relations.
From Equations Require Import Equations.

(** * Part I: the program *)

(** Case analysis on a computed value that keeps the equation. *)
Definition inspect {A : Type} (x : A) : { y : A | x = y } := exist _ x eq_refl.

(** ** [fastembed/common/utils.py] *)

Module Utils.

Section IterBatch.
Context {A : Type}.

(** [list(islice(source_iter, size))]: the items taken and the state in
    which the shared iterator is left. *)
Definition islice (source_iter : list A) (size : nat) : list A * list A :=
  (take size source_iter, drop size source_iter).

(** The loop of [iter_batch].  An iterator object is always truthy, so
    [while source_iter] only ends through the [break]. *)
Equations? iter_batch_loop (size : nat) (source_iter : list A) : list (list A)
  by wf (length source_iter) lt :=
  iter_batch_loop size source_iter with inspect (islice source_iter size) := {
    | exist _ (b, rest) Hb with inspect (Nat.eqb (length b) 0) := {
        | exist _ true _ := [];
        | exist _ false Hlen := b :: iter_batch_loop size rest } }.
Proof.
  apply Nat.eqb_neq in Hlen. rewrite length_take in Hlen.
  rewrite length_drop. lia.
Qed.

(** [list(iter_batch(iterable, size))]. [islice] raises [ValueError] on a
    negative stop the first time the generator is advanced. *)
Definition iter_batch (iterable : list A) (size : Z) : option (list (list A)) :=
  if decide (size < 0)%Z then None
  else Some (iter_batch_loop (Z.to_nat size) iterable).

End IterBatch.

(** *** [normalize]

    A two-dimensional float array of shape (B, D) is the list of its B rows.
    Every caller keeps the defaults [p=2] and [dim=1], which are fixed
    here; [eps] stays a parameter. *)

Definition eps_default : R := (/ 10 ^ 12)%R.

Definition Rsum (l : list R) : R := foldr Rplus 0%R l.

(** [np.linalg.norm(input_array, ord=2, axis=1, keepdims=True)]:
    shape (B, D) to shape (B, 1). *)
Definition linalg_norm (input_array : list (list R)) : list (list R) :=
  map (fun row => [sqrt (Rsum (map (fun x => x * x)%R row))]) input_array.

(** [np.maximum(norm, eps)], element by element. *)
Definition np_maximum (norm : list (list R)) (eps : R) : list (list R) :=
  map (map (fun n => Rmax n eps)) norm.

(** Division of one row by a row that broadcasts against it: a row of
    length one is stretched along the axis. *)
Definition broadcast_div_row (row nrow : list R) : list R :=
  match nrow with
  | [d] => map (fun x => x / d)%R row
  | _ => zip_with Rdiv row nrow
  end.

(** [input_array / norm] for shapes (B, D) and (B, 1). *)
Definition np_divide (input_array norm : list (list R)) : list (list R) :=
  zip_with broadcast_div_row input_array norm.

Definition normalize (input_array : list (list R)) (eps : R) : list (list R) :=
  let norm := linalg_norm input_array in
  let norm := np_maximum norm eps in
  let normalized_array := np_divide input_array norm in
  normalized_array.

(** *** [adjust_matryoshka_embedding]

    An array of rank at least one is given by the sizes of its leading
    axes, the size of its last axis, and its vectors along the last axis in
    row-major order.  (A rank-0 array has no [shape[-1]].) *)

Record ndarray (A : Type) := mk_ndarray {
  lead_shape : list nat;
  last_dim : nat;
  vectors : list (list A) }.
Arguments mk_ndarray {A} _ _ _.
Arguments lead_shape {A} _.
Arguments last_dim {A} _.
Arguments vectors {A} _.

(** The shape invariant of an array. *)
Definition ndarray_wf {A} (a : ndarray A) : Prop :=
  length (vectors a) = foldr Nat.mul 1 (lead_shape a) /\
  Forall (fun v => length v = last_dim a) (vectors a).

(** The stop index of the Python slice [:stop] on an axis of size [n]:
    a negative stop counts from the end, and the result is clamped to the
    axis. *)
Definition slice_stop (n : nat) (stop : Z) : nat :=
  if decide (stop < 0)%Z then Z.to_nat (Z.max (Z.of_nat n + stop) 0)
  else Z.to_nat (Z.min stop (Z.of_nat n)).

(** [embeddings[..., :stop]]. *)
Definition slice_last {A} (embeddings : ndarray A) (stop : Z) : ndarray A :=
  let k := slice_stop (last_dim embeddings) stop in
  mk_ndarray (lead_shape embeddings) k (map (take k) (vectors embeddings)).

(** [np.pad(embeddings, [(0, 0)] * (ndim - 1) + [(before, after)],
    mode="constant")]: the leading axes get no padding, the last axis gets
    [before] zeros in front and [after] zeros behind. *)
Definition np_pad_last {A} (zero : A) (embeddings : ndarray A)
    (before after : nat) : ndarray A :=
  mk_ndarray (lead_shape embeddings)
    (before + last_dim embeddings + after)
    (map (fun v => replicate before zero ++ v ++ replicate after zero)
         (vectors embeddings)).

Definition adjust_matryoshka_embedding {A} (zero : A)
    (embeddings : ndarray A) (embedding_size : Z) : ndarray A :=
  if decide (embedding_size < Z.of_nat (last_dim embeddings))%Z then
    slice_last embeddings embedding_size
  else if decide (embedding_size > Z.of_nat (last_dim embeddings))%Z then
    let padding := Z.to_nat (embedding_size - Z.of_nat (last_dim embeddings)) in
    np_pad_last zero embeddings 0 padding
  else embeddings.

End Utils.

(** ** [fastembed/parallel_processor.py] *)

Module ParallelProcessor.

Section Pool.
Context {T U : Type}.

(** The [Worker] interface: [process] turns the stream of indexed tasks a
    worker receives into the stream of indexed results it sends back. *)
Variable process : list (nat * T) -> list (nat * U).

(** Modelled from the spec: [ParallelWorkerPool] and its [ordered_map] (the
    module [fastembed/parallel_processor.py] is not among the sources).  The
    pool pulls batches from its lazy input, gives each the next sequence
    position, hands the indexed task to any worker, keeps the indexed
    results that workers send back in a buffer keyed by position, and
    yields the buffered result whose position is due next.  At most
    [capacity] positions are outstanding at a time. *)
Record pool_state := mk_pool {
  input : list T;
  next_pos : nat;
  queues : list (list (nat * T));
  buffer : gmap nat U;
  next_due : nat;
  yielded : list U }.

(** Modelled from the spec: a new pool with idle workers and nothing
    pulled from the input. *)
Definition pool_init (num_workers : nat) (batches : list T) : pool_state :=
  mk_pool batches 0 (replicate num_workers []) ∅ 0 [].

(** Modelled from the spec: indexed results that arrive are buffered under
    their position. *)
Definition receive (results : list (nat * U)) (buf : gmap nat U) : gmap nat U :=
  foldr (fun r acc => <[r.1 := r.2]> acc) buf results.

(** Modelled from the spec: the moves of the pool.  A batch is pulled and
    dispatched to some worker; a worker processes the task at the head of
    its queue; the result that is due next is yielded. *)
Inductive pool_step (capacity : nat) : pool_state -> pool_state -> Prop :=
| step_dispatch s b rest w q :
    input s = b :: rest ->
    queues s !! w = Some q ->
    next_pos s < next_due s + capacity ->
    pool_step capacity s
      (mk_pool rest (S (next_pos s))
               (<[w := q ++ [(next_pos s, b)]]> (queues s))
               (buffer s) (next_due s) (yielded s))
| step_work s w task q :
    queues s !! w = Some (task :: q) ->
    pool_step capacity s
      (mk_pool (input s) (next_pos s) (<[w := q]> (queues s))
               (receive (process [task]) (buffer s))
               (next_due s) (yielded s))
| step_yield s out :
    buffer s !! next_due s = Some out ->
    pool_step capacity s
      (mk_pool (input s) (next_pos s) (queues s)
               (delete (next_due s) (buffer s))
               (S (next_due s)) (yielded s ++ [out])).

(** Modelled from the spec: the output sequence ends once the input is
    exhausted and every position handed out has been yielded. *)
Definition pool_finished (s : pool_state) : Prop :=
  input s = [] /\ next_due s = next_pos s.

(** The number of tasks waiting in the workers' queues. *)
Definition queued (qs : list (list (nat * T))) : nat :=
  foldr (fun q n => length q + n) 0 qs.

(** A bound on the number of steps the pool can still take. *)
Definition pool_fuel (s : pool_state) : nat :=
  3 * length (input s) + 2 * queued (queues s) + size (buffer s).

(** Modelled from the spec: [list(pool.ordered_map(batches))] for a pool of
    [num_workers] workers. *)
Definition ordered_map (num_workers capacity : nat) (batches : list T)
    (outs : list U) : Prop :=
  exists s, rtc (pool_step capacity) (pool_init num_workers batches) s /\
            pool_finished s /\ yielded s = outs.

End Pool.

Section Invariant.
Context {T U : Type}.
Variable run : T -> U.
Implicit Types (s : pool_state (T:=T) (U:=U)) (all : list T).

(** What holds in every state the pool reaches on the batches [all]. *)
Record pool_inv all s : Prop := mk_pool_inv {
  inv_input : input s = drop (next_pos s) all;
  inv_pos : next_pos s <= length all;
  inv_due : next_due s <= next_pos s;
  inv_yielded : yielded s = map run (take (next_due s) all);
  inv_queues : forall w q idx b,
    queues s !! w = Some q -> (idx, b) ∈ q ->
    all !! idx = Some b /\ idx < next_pos s;
  inv_buffer : forall idx out,
    buffer s !! idx = Some out ->
    idx < next_pos s /\ exists b, all !! idx = Some b /\ out = run b;
  inv_outstanding : forall idx,
    next_due s <= idx < next_pos s ->
    is_Some (buffer s !! idx) \/
    exists w q b, queues s !! w = Some q /\ (idx, b) ∈ q }.

End Invariant.

End ParallelProcessor.

(** ** [fastembed/embedding.py] *)

Module Embedding.

(** The module carries its own [iter_batch] and [normalize], line for line
    those of [common/utils.py]. *)
Definition iter_batch {A} := @Utils.iter_batch A.
Definition normalize := Utils.normalize.

Inductive PyError := ValueError | IndexError.

(** What draining a generator gives: the values it yields and, if it does
    not end normally, the exception that ends it. *)
Definition trace (A : Type) : Type := list A * option PyError.

(** [for x in xs: yield from body(x)], where [body] may raise. *)
Fixpoint yield_from_each {X A} (body : X -> PyError + list A) (xs : list X)
    : trace A :=
  match xs with
  | [] => ([], None)
  | x :: rest =>
      match body x with
      | inl e => ([], Some e)
      | inr ys => let '(zs, e) := yield_from_each body rest in (ys ++ zs, e)
      end
  end.

(** A float array of shape (B, S, H): its shape and its B items, each a
    list of S token vectors of H components. *)
Record ndarray3 := mk_ndarray3 {
  shape3 : nat * nat * nat;
  items : list (list (list R)) }.

Definition ndarray3_wf (a : ndarray3) : Prop :=
  let '(nb, ns, nh) := shape3 a in
  length (items a) = nb /\
  Forall (fun item => length item = ns /\
                      Forall (fun tok => length tok = nh) item) (items a).

(** The raw output of one inference call: token embeddings and the
    attention mask, of shape (B, S). *)
Definition RawOutput : Type := ndarray3 * list (list Z).

Record EmbeddingModel := mk_model {
  path : string;
  model_name : string;
  max_length : Z;
  max_threads : option Z }.

(** [embeddings[:, 0]]: indexing an axis of size 0 raises [IndexError]. *)
Definition first_token (embeddings : ndarray3) : PyError + list (list R) :=
  let '(_, ns, _) := shape3 embeddings in
  if decide (ns = 0) then inl IndexError
  else inr (map (fun item => default [] (item !! 0)) (items embeddings)).

(** [x.astype(np.float32)]; rounding to single precision is outside the
    model, which computes with exact reals. *)
Definition astype_float32 (x : list (list R)) : list (list R) := x.

(** *** Float values

    [mean_pooling] multiplies, adds and divides the float64 values of a
    numpy array, among which are the infinities and NaN.  A float is a
    finite real, an infinity with its sign, or NaN.  On the special values
    the operations are those of IEEE 754: [inf * 0], [inf - inf], [0 / 0]
    and [inf / inf] are NaN, and NaN propagates.  On finite values they are
    exact: rounding, overflow and the sign of zero are outside the model. *)
Inductive float64 := Finite (r : R) | Inf (negative : bool) | NaN.

Definition is_negative (r : R) : bool := if Rlt_dec r 0 then true else false.

Definition float_add (x y : float64) : float64 :=
  match x, y with
  | NaN, _ | _, NaN => NaN
  | Inf s, Inf s' => if Bool.eqb s s' then Inf s else NaN
  | Inf s, Finite _ | Finite _, Inf s => Inf s
  | Finite a, Finite b => Finite (a + b)
  end.

Definition float_mul (x y : float64) : float64 :=
  match x, y with
  | NaN, _ | _, NaN => NaN
  | Inf s, Inf s' => Inf (xorb s s')
  | Inf s, Finite r | Finite r, Inf s =>
      if Req_dec_T r 0 then NaN else Inf (xorb s (is_negative r))
  | Finite a, Finite b => Finite (a * b)
  end.

Definition float_div (x y : float64) : float64 :=
  match x, y with
  | NaN, _ | _, NaN => NaN
  | Inf _, Inf _ => NaN
  | Inf s, Finite r => Inf (xorb s (is_negative r))
  | Finite _, Inf _ => Finite 0
  | Finite a, Finite b =>
      if Req_dec_T b 0
      then (if Req_dec_T a 0 then NaN else Inf (is_negative a))
      else Finite (a / b)
  end.

(** [max(x, a_min)] as [np.clip] and [np.maximum] take it: NaN stays NaN. *)
Definition float_max (x : float64) (a_min : R) : float64 :=
  match x with
  | NaN => NaN
  | Inf false => Inf false
  | Inf true => Finite a_min
  | Finite r => Finite (Rmax r a_min)
  end.

(** A float array of shape (B, S, H). *)
Record float_array3 := mk_float_array3 {
  float_shape3 : nat * nat * nat;
  float_items : list (list (list float64)) }.

Definition float_array3_wf (a : float_array3) : Prop :=
  let '(nb, ns, nh) := float_shape3 a in
  length (float_items a) = nb /\
  Forall (fun item => length item = ns /\
                      Forall (fun tok => length tok = nh) item)
         (float_items a).

Definition is_finite (x : float64) : bool :=
  match x with Finite _ => true | _ => false end.

(** The float array that holds the given reals: an array of finite
    values. *)
Definition of_reals (a : ndarray3) : float_array3 :=
  mk_float_array3 (shape3 a) (map (map (map Finite)) (items a)).

(** The real a finite float holds. *)
Definition float_real (x : float64) : R :=
  match x with Finite r => r | _ => 0%R end.

(** *** [JinaEmbedding.mean_pooling] *)

(** [np.expand_dims(attention_mask, axis=-1).astype(float)]:
    shape (B, S) to shape (B, S, 1). *)
Definition expand_mask (attention_mask : list (list Z))
    : list (list (list float64)) :=
  map (map (fun m => [Finite (IZR m)])) attention_mask.

(** One token vector times a row that broadcasts against it. *)
Definition broadcast_mul_row (tok mrow : list float64) : list float64 :=
  match mrow with
  | [m] => map (fun v => float_mul v m) tok
  | _ => zip_with float_mul tok mrow
  end.

(** [token_embeddings * input_mask_expanded] for shapes (B, S, H) and
    (B, S, 1).  The two arrays come from one inference call and agree on B
    and S. *)
Definition np_multiply
    (token_embeddings input_mask_expanded : list (list (list float64)))
    : list (list (list float64)) :=
  zip_with (zip_with broadcast_mul_row) token_embeddings input_mask_expanded.

(** [np.sum(a, axis=1)] for shape (B, S, H): the S token vectors of each
    item are added up, starting from the zero vector of H components. *)
Definition np_sum_axis1 (nh : nat) (a : list (list (list float64)))
    : list (list float64) :=
  map (foldr (zip_with float_add) (replicate nh (Finite 0%R))) a.

(** [np.clip(a, a_min=a_min, a_max=None)]. *)
Definition np_clip_min (a : list (list float64)) (a_min : R)
    : list (list float64) :=
  map (map (fun x => float_max x a_min)) a.

(** One row divided by a row that broadcasts against it. *)
Definition broadcast_true_div_row (row drow : list float64) : list float64 :=
  match drow with
  | [c] => map (fun x => float_div x c) row
  | _ => zip_with float_div row drow
  end.

(** [sum_embeddings / mask_sum] for shapes (B, H) and (B, 1). *)
Definition np_true_divide (a b : list (list float64)) : list (list float64) :=
  zip_with broadcast_true_div_row a b.

Definition mask_floor : R := (/ 10 ^ 9)%R.

Definition mean_pooling (model_output : float_array3)
    (attention_mask : list (list Z)) : list (list float64) :=
  let token_embeddings := float_items model_output in
  let nh := (float_shape3 model_output).2 in
  let input_mask_expanded := expand_mask attention_mask in
  let sum_embeddings :=
    np_sum_axis1 nh (np_multiply token_embeddings input_mask_expanded) in
  let mask_sum := np_clip_min (np_sum_axis1 1 input_mask_expanded) mask_floor in
  np_true_divide sum_embeddings mask_sum.

(** *** The pipeline driver *)

(** The [documents] argument: a single [str], a [list], or any other
    iterable of strings (a generator, a tuple), given by its items. *)
Inductive documents :=
| DocStr (s : string)
| DocList (l : list string)
| DocIterable (l : list string).

Definition doc_items (d : documents) : list string :=
  match d with
  | DocStr s => [s]
  | DocList l => l
  | DocIterable l => l
  end.

Inductive execution :=
| SingleProcess
| ParallelPool (num_workers : Z).

(** The head of [embed]: the rebinding of [documents], the [is_small] flag
    and the rebinding of [parallel]; [cpu_count] is what [os.cpu_count()]
    returns. *)
Definition embed_prelude (cpu_count : option Z) (docs : documents)
    (batch_size : Z) (parallel : option Z) : documents * bool * option Z :=
  let is_small := false in
  let '(docs, is_small) :=
    match docs with
    | DocStr s => (DocList [s], true)
    | _ => (docs, is_small)
    end in
  let is_small :=
    match docs with
    | DocList l => if decide (Z.of_nat (length l) < batch_size)%Z then true
                   else is_small
    | _ => is_small
    end in
  let parallel := if decide (parallel = Some 0%Z) then cpu_count else parallel in
  (docs, is_small, parallel).

(** The items of [documents] as the two branches see it. *)
Definition embed_documents (cpu_count : option Z) (docs : documents)
    (batch_size : Z) (parallel : option Z) : list string :=
  doc_items (embed_prelude cpu_count docs batch_size parallel).1.1.

(** The branch [if parallel is None or is_small] takes. *)
Definition embed_execution (cpu_count : option Z) (docs : documents)
    (batch_size : Z) (parallel : option Z) : execution :=
  let '(_, is_small, parallel) := embed_prelude cpu_count docs batch_size parallel in
  match parallel with
  | None => SingleProcess
  | Some n => if is_small then SingleProcess else ParallelPool n
  end.

Section Driver.

(** [EmbeddingModel.onnx_embed]: tokenizer and inference session belong to
    the external engine. *)
Variable onnx_embed : EmbeddingModel -> list string -> RawOutput.

(** [EmbeddingWorker.start] and [EmbeddingWorker.__init__]. *)
Definition worker_start (path model_name : string) (max_length : Z)
    : EmbeddingModel :=
  mk_model path model_name max_length (Some 1%Z).

(** [EmbeddingWorker.process]. *)
Definition process (model : EmbeddingModel) (items : list (nat * list string))
    : list (nat * RawOutput) :=
  map (fun '(idx, batch) =>
         let '(embeddings, attn_mask) := onnx_embed model batch in
         (idx, (embeddings, attn_mask))) items.

(** The attributes [__init__] leaves on a [FlagEmbedding] or
    [JinaEmbedding]. *)
Record embedding_self := mk_self {
  self_model_name : string;
  _model_dir : string;
  _max_length : Z;
  model : EmbeddingModel }.

Definition embedding_init (model_name model_dir : string) (max_length : Z)
    (threads : option Z) : embedding_self :=
  mk_self model_name model_dir max_length
          (mk_model model_dir model_name max_length threads).

(** The body shared by [FlagEmbedding.embed] and [JinaEmbedding.embed],
    which differ in the post-processing [post] of a raw output only.  The
    relation gives the traces that draining the generator can produce;
    [capacity] is the bound on outstanding tasks of the pool it creates. *)
Inductive embed_trace (post : RawOutput -> PyError + list (list R))
    (cpu_count : option Z) (capacity : nat) (self : embedding_self)
    (docs : documents) (batch_size : Z) (parallel : option Z)
    : trace (list R) -> Prop :=
| embed_single_bad_size :
    embed_execution cpu_count docs batch_size parallel = SingleProcess ->
    iter_batch (embed_documents cpu_count docs batch_size parallel) batch_size
      = None ->
    embed_trace post cpu_count capacity self docs batch_size parallel
      ([], Some ValueError)
| embed_single batches :
    embed_execution cpu_count docs batch_size parallel = SingleProcess ->
    iter_batch (embed_documents cpu_count docs batch_size parallel) batch_size
      = Some batches ->
    embed_trace post cpu_count capacity self docs batch_size parallel
      (yield_from_each (fun batch => post (onnx_embed (model self) batch)) batches)
| embed_pool n batches outs :
    embed_execution cpu_count docs batch_size parallel = ParallelPool n ->
    iter_batch (embed_documents cpu_count docs batch_size parallel) batch_size
      = Some batches ->
    ParallelProcessor.ordered_map
      (process (worker_start (_model_dir self) (self_model_name self)
                             (_max_length self)))
      (Z.to_nat n) capacity batches outs ->
    embed_trace post cpu_count capacity self docs batch_size parallel
      (yield_from_each post outs).

(** [normalize(embeddings[:, 0]).astype(np.float32)]. *)
Definition flag_post (batch : RawOutput) : PyError + list (list R) :=
  let '(embeddings, _) := batch in
  match first_token embeddings with
  | inl e => inl e
  | inr cls => inr (astype_float32 (normalize cls Utils.eps_default))
  end.

(** [normalize(self.mean_pooling(embeddings, attn_mask)).astype(np.float32)].
    The engine's output is an array of finite values, and so is what
    [mean_pooling] makes of it (lemma [mean_pooling_of_reals]); [normalize]
    works on the reals it holds. *)
Definition jina_post (batch : RawOutput) : PyError + list (list R) :=
  let '(embeddings, attn_mask) := batch in
  let pooled := mean_pooling (of_reals embeddings) attn_mask in
  inr (astype_float32
         (normalize (map (map float_real) pooled) Utils.eps_default)).

Definition FlagEmbedding_embed := embed_trace flag_post.
Definition JinaEmbedding_embed := embed_trace jina_post.

(** The single-process branch on its own, as a function. *)
Definition embed_single_process (post : RawOutput -> PyError + list (list R))
    (self : embedding_self) (docs : documents) (batch_size : Z)
    : trace (list R) :=
  match iter_batch (doc_items docs) batch_size with
  | None => ([], Some ValueError)
  | Some batches =>
      yield_from_each (fun batch => post (onnx_embed (model self) batch)) batches
  end.

End Driver.

End Embedding.

(** ** [fastembed/sparse/sparse_text_embedding.py] *)

Module Sparse.

(** What [SparseTextEmbedding.embed] ends up doing: the two callees are
    methods of the registered model classes; the third case is the
    attribute lookup [self.model.embed] on [self.model = None]. *)
Inductive embed_call :=
| EmbedDocumentsParallel (parallel : Z)
| ModelEmbed (parallel : option Z)
| AttributeError.

(** Python truthiness of [parallel]. *)
Definition truthy (parallel : option Z) : bool :=
  match parallel with
  | None => false
  | Some n => negb (n =? 0)%Z
  end.

(** [SparseTextEmbedding.embed] on an object whose [lazy_load] flag is
    [lazy_load] and whose [model] attribute is set iff [model_loaded];
    returns whether [model] is set afterwards, and the call made. *)
Definition embed (lazy_load model_loaded : bool) (parallel : option Z)
    : bool * embed_call :=
  let model_loaded :=
    if lazy_load && negb model_loaded && bool_decide (parallel = None)
    then true else model_loaded in
  if truthy parallel then
    (model_loaded, EmbedDocumentsParallel (default 0%Z parallel))
  else if model_loaded then (model_loaded, ModelEmbed parallel)
  else (model_loaded, AttributeError).

End Sparse.

(** ** [fastembed/late_interaction/late_interaction_image_embedding_base.py] *)

Module LateInteraction.

(** A [query] argument: a [str], another iterable of strings, or an object
    that is neither. *)
Inductive query :=
| QueryStr (s : string)
| QueryIterable (l : list string)
| QueryOther.

(** What [embed] is called with: the [str] itself or an iterable. *)
Inductive embed_arg :=
| ArgStr (s : string)
| ArgIterable (l : list string).

Definition is_str (q : query) : bool :=
  match q with QueryStr _ => true | _ => false end.

(** [isinstance(query, Iterable)]: a [str] is iterable too. *)
Definition is_iterable (q : query) : bool :=
  match q with QueryStr _ | QueryIterable _ => true | QueryOther => false end.

Section QueryEmbed.
Context {E : Type}.

(** [self.embed], which subclasses provide; given by the list it yields. *)
Variable embed : embed_arg -> list E.

Definition query_embed (q : query) : list E :=
  (if is_str q then
     match q with
     | QueryStr s => embed (ArgIterable [s])
     | _ => []
     end
   else []) ++
  (if is_iterable q then
     match q with
     | QueryStr s => embed (ArgStr s)
     | QueryIterable l => embed (ArgIterable l)
     | QueryOther => []
     end
   else []).

End QueryEmbed.

(** The characters a [str] gives when iterated, each a [str] of length one. *)
Definition chars (s : string) : list string :=
  map (fun c => String c EmptyString) (String.list_ascii_of_string s).

(** What iterating the argument of [embed] gives. *)
Definition iterate (a : embed_arg) : list string :=
  match a with
  | ArgStr s => chars s
  | ArgIterable l => l
  end.

(** An [embed] that iterates its argument and yields one embedding for
    each item. *)
Definition embed_each {E} (embed_one : string -> E) (a : embed_arg) : list E :=
  map embed_one (iterate a).

End LateInteraction.

(** ** [fastembed/embedding.py]: the other methods of [Embedding] *)

Module EmbeddingMethods.
Import Embedding.

(** The character ["/"] (code 47). *)
Definition slash : Ascii.ascii :=
  Ascii.Ascii true true true true false true false false.

Inductive PyExc := KeyError | AttributeError | ValueErrorExc | AssertionError.

(** A JSON value of [models.json]: a string, an array of strings (the
    source lists), or any other value (number, boolean, null), given by
    its text. *)
Inductive json :=
| JString (s : string)
| JArray (l : list string)
| JAtom (text : string).

(** A JSON object, as the [dict] that [json.load] returns. *)
Abbreviation model_dict := (gmap string json).

(** [Embedding.list_supported_models(exclude)], on the list [models] that
    [json.load] reads from [models.json]. *)
Definition list_supported_models (models : list model_dict)
    (exclude : list string) : list model_dict :=
  map (fun model => filter (fun kv : string * json => kv.1 ∉ exclude) model)
      models.

(** [model["model"].startswith(prefix)]: the key may be missing, and only a
    [str] has [startswith]. *)
Definition model_startswith (prefix : string) (model : model_dict)
    : PyExc + bool :=
  match model !! "model" with
  | None => inl KeyError
  | Some (JString s) => inr (String.prefix prefix s)
  | Some _ => inl AttributeError
  end.

(** [[model for model in models if keep(model)]], where [keep] may raise. *)
Fixpoint select_models (keep : model_dict -> PyExc + bool)
    (models : list model_dict) : PyExc + list model_dict :=
  match models with
  | [] => inr []
  | model :: rest =>
      match keep model with
      | inl e => inl e
      | inr b =>
          match select_models keep rest with
          | inl e => inl e
          | inr kept => inr (if b then model :: kept else kept)
          end
      end
  end.

Definition default_exclude : list string :=
  ["compressed_url_sources"; "hf_sources"].

(** [FlagEmbedding.list_supported_models(exclude)]. *)
Definition FlagEmbedding_list_supported_models (models : list model_dict)
    (exclude : list string) : PyExc + list model_dict :=
  select_models
    (fun model => match model_startswith "jinaai" model with
                  | inl e => inl e
                  | inr b => inr (negb b)
                  end)
    (list_supported_models models exclude).

(** [JinaEmbedding.list_supported_models(exclude)]. *)
Definition JinaEmbedding_list_supported_models (models : list model_dict)
    (exclude : list string) : PyExc + list model_dict :=
  select_models (model_startswith "jinaai")
                (list_supported_models models exclude).

(** ["/" in model_name]. *)
Definition contains_slash (model_name : string) : bool :=
  existsb (Ascii.eqb slash) (String.list_ascii_of_string model_name).

(** [[model["model"] for model in models]]. *)
Fixpoint model_names (models : list model_dict) : PyExc + list json :=
  match models with
  | [] => inr []
  | model :: rest =>
      match model !! "model" with
      | None => inl KeyError
      | Some v =>
          match model_names rest with
          | inl e => inl e
          | inr names => inr (v :: names)
          end
      end
  end.

(** [model_name == v] for a JSON value [v]: only a string can be equal. *)
Definition is_name (model_name : string) (v : json) : bool :=
  match v with
  | JString s => String.eqb model_name s
  | _ => false
  end.

(** [assert_model_name(model_name)] of a class whose
    [list_supported_models()] gives [supported]. *)
Definition assert_model_name (supported : PyExc + list model_dict)
    (model_name : string) : PyExc + unit :=
  if negb (contains_slash model_name) then inl AssertionError
  else
    match supported with
    | inl e => inl e
    | inr models =>
        match model_names models with
        | inl e => inl e
        | inr names =>
            if existsb (is_name model_name) names then inr tt
            else inl ValueErrorExc
        end
    end.

(** *** The download loop of [download_files_from_huggingface] *)

(** What one call of [snapshot_download] does: it returns a path, raises an
    exception that the loop catches ([RepositoryNotFoundError],
    [EnvironmentError]), or raises another one. *)
Inductive attempt :=
| Downloaded (path : string)
| NotFound (e : string)
| OtherError (e : string).

Inductive download_outcome :=
| Returned (path : string)
| RaisedNoSource
| RaisedCaught (e : string)
| RaisedOther (e : string)
| ReturnedNone.

Section Download.

(** [snapshot_download] at the [index]-th turn of the loop, for a
    repository id: the network's answer. *)
Variable snapshot_download : nat -> string -> attempt.

(** The [for index, repo_id in enumerate(hf_sources)] loop from turn
    [index] on; [last] is [hf_sources[-1]]. *)
Fixpoint download_loop (last : option string) (index : nat)
    (sources : list string) : download_outcome :=
  match sources with
  | [] => ReturnedNone
  | repo_id :: rest =>
      match snapshot_download index repo_id with
      | Downloaded path => Returned path
      | NotFound e =>
          if decide (Some repo_id = last) then RaisedCaught e
          else download_loop last (S index) rest
      | OtherError e => RaisedOther e
      end
  end.

(** [download_files_from_huggingface] from the point where [hf_sources]
    has been collected. *)
Definition download_from_sources (hf_sources : list string) : download_outcome :=
  match hf_sources with
  | [] => RaisedNoSource
  | _ => download_loop (last hf_sources) 0 hf_sources
  end.

End Download.

(** *** The directory name of [retrieve_model_gcs] *)

(** [s.split("/")]. *)
Fixpoint split_slash (s : string) : list string :=
  match s with
  | EmptyString => [EmptyString]
  | String c rest =>
      if Ascii.eqb c slash then EmptyString :: split_slash rest
      else
        match split_slash rest with
        | seg :: segs => String c seg :: segs
        | [] => [String c EmptyString]
        end
  end.

(** ["/".join(segments)]. *)
Fixpoint join_slash (segments : list string) : string :=
  match segments with
  | [] => EmptyString
  | [seg] => seg
  | seg :: rest => (seg ++ "/" ++ join_slash rest)%string
  end.

(** [f"fast-{model_name.split('/')[-1]}"]. *)
Definition fast_model_name (model_name : string) : string :=
  ("fast-" ++ default EmptyString (last (split_slash model_name)))%string.

(** *** [passage_embed] and [query_embed] *)

Section Methods.
Variable onnx_embed : EmbeddingModel -> list string -> RawOutput.
Variable post : RawOutput -> PyError + list (list R).

(** The generator [(f"passage: {t}" for t in texts)], by its items. *)
Definition passage_documents (texts : list string) : documents :=
  DocIterable (map (fun t => ("passage: " ++ t)%string) texts).

(** [passage_embed(texts, batch_size=..., parallel=...)]; [texts] is given
    by the items it yields. *)
Definition passage_embed (cpu_count : option Z) (capacity : nat)
    (self : embedding_self) (texts : list string) (batch_size : Z)
    (parallel : option Z) : trace (list R) -> Prop :=
  embed_trace onnx_embed post cpu_count capacity self
              (passage_documents texts) batch_size parallel.

(** [query_embed(query)]: [embed] on a one-element list, with its default
    [batch_size] and [parallel]. *)
Definition query_embed (cpu_count : option Z) (capacity : nat)
    (self : embedding_self) (query : string) : trace (list R) -> Prop :=
  let query := ("query: " ++ query)%string in
  embed_trace onnx_embed post cpu_count capacity self
              (DocList [query]) 256 None.

End Methods.

End EmbeddingMethods.

(** ** [fastembed/sparse/sparse_text_embedding.py]: the object over its life *)

Module SparseObject.



Inductive query_call :=
| ModelQueryEmbed
| QueryAttributeError.

(** [query_embed]: [yield from self.model.query_embed(query, **kwargs)]. *)
Definition query_embed (model_loaded : bool) : query_call :=
  if model_loaded then ModelQueryEmbed else QueryAttributeError.

End SparseObject.

(** ** Sample data *)

Module Samples.
Import Embedding.

(** An inference engine that gives every document the same two token
    vectors and a mask that keeps the first only. *)
Definition toy_onnx_embed (m : EmbeddingModel) (batch : list string) : RawOutput :=
  (mk_ndarray3 (length batch, 2, 2)
     (map (fun _ => [[3; 4]; [5; 12]]%R) batch),
   map (fun _ => [1; 0]%Z) batch).

(** One item of two tokens with hidden size two, and the same item with
    another second token. *)
Definition toy_output : ndarray3 :=
  mk_ndarray3 (1, 2, 2) [[[3; 4]; [5; 12]]]%R.

Definition toy_output' : ndarray3 :=
  mk_ndarray3 (1, 2, 2) [[[3; 4]; [7; 7]]]%R.

(** The first item with an infinity, and with NaN, in its second token. *)
Definition inf_output : float_array3 :=
  mk_float_array3 (1, 2, 2)
    [[[Finite 3; Finite 4]; [Inf false; Finite 12]]]%R.

Definition nan_output : float_array3 :=
  mk_float_array3 (1, 2, 2)
    [[[Finite 3; Finite 4]; [NaN; Finite 12]]]%R.

Definition toy_self : embedding_self :=
  embedding_init "BAAI/bge-small-en-v1.5" "/tmp/fastembed_cache" 512 None.

End Samples.

(** ** The model registries of [ImageEmbedding], [SparseTextEmbedding] and
    [MultiTaskTextEmbedding] *)

Module Registry.

Section Lookup.
Context {C : Type}.

(** [str.lower]. *)
Variable lower : string -> string.

(** The ["model"] entries of [EMBEDDING_MODEL_TYPE.list_supported_models()],
    for each model class (the classes are not among the sources). *)
Variable supported : C -> list string.

(** [any(model_name.lower() == model["model"].lower()
         for model in supported_models)]. *)
Definition supports (model_name : string) (c : C) : bool :=
  existsb (fun m => String.eqb (lower model_name) (lower m)) (supported c).

(** The [for EMBEDDING_MODEL_TYPE in self.EMBEDDINGS_REGISTRY] loop of
    [__init__]: the first class that supports the name, or [ValueError]. *)
Fixpoint init (registry : list C) (model_name : string)
    : EmbeddingMethods.PyExc + C :=
  match registry with
  | [] => inl EmbeddingMethods.ValueErrorExc
  | c :: rest => if supports model_name c then inr c else init rest model_name
  end.

(** [list_supported_models()]: the lists of the classes, one after the
    other. *)
Fixpoint list_supported_models (registry : list C) : list string :=
  match registry with
  | [] => []
  | c :: rest => supported c ++ list_supported_models rest
  end.

End Lookup.

(** [MultiTaskTextEmbedding.EMBEDDINGS_REGISTRY]. *)
Definition MultiTask_registry {C : Type} : list C := [].

End Registry.

(** Two entries in the shape of [models.json]. *)
Module ModelSamples.
Import EmbeddingMethods.

Definition bge : model_dict :=
  <["model" := JString "BAAI/bge-base-en"]>
    (<["dim" := JAtom "768"]>
       (<["hf_sources" := JArray ["Qdrant/fast-bge-base-en"]]> ∅)).

Definition jina : model_dict :=
  <["model" := JString "jinaai/jina-embeddings-v2-base-en"]>
    (<["dim" := JAtom "768"]>
       (<["hf_sources" := JArray ["xenova/jina-embeddings-v2-base-en"]]> ∅)).

Definition models : list model_dict := [bge; jina].

(** A network on which one repository can be downloaded. *)
Definition network (index : nat) (repo_id : string) : attempt :=
  if String.eqb repo_id "Qdrant/fast-bge-base-en"
  then Downloaded "/cache/models--Qdrant--fast-bge-base-en"
  else NotFound "RepositoryNotFoundError".

End ModelSamples.

(** ** Vocabulary of the statements *)

(** The input counts as small for [embed]: a single [str], or a [list] with
    fewer than [batch_size] items. *)
Definition small_input (docs : Embedding.documents) (batch_size : Z) : Prop :=
  match docs with
  | Embedding.DocStr _ => True
  | Embedding.DocList l => (Z.of_nat (length l) < batch_size)%Z
  | Embedding.DocIterable _ => False
  end.


(** The Euclidean norm of a vector. *)
Definition l2_norm (v : list R) : R :=
  sqrt (Utils.Rsum (map (fun x => x * x)%R v)).

(** A vector divided by its Euclidean norm floored at [eps]. *)
Definition l2_normalized (eps : R) (v : list R) : list R :=
  map (fun x => x / Rmax (l2_norm v) eps)%R v.


(** The array operations of [mean_pooling] as they act on one item of
    finite values with hidden size [nh], in real arithmetic. *)
Definition pool_item (nh : nat) (item : list (list R)) (mask_row : list Z)
    : list R :=
  map (fun v => v / Rmax (Utils.Rsum (map IZR mask_row)) Embedding.mask_floor)%R
      (foldr (zip_with Rplus) (replicate nh 0%R)
             (zip_with (fun tok m => map (fun v => v * IZR m)%R tok)
                       item mask_row)).


(** The mask row of length [ns] that is 1 at the first [k] positions and 0
    afterwards. *)
Definition prefix_mask (ns k : nat) : list Z :=
  replicate k 1%Z ++ replicate (ns - k) 0%Z.


(** * Part II: properties *)

(** ** The batcher *)

Section IterBatchFacts.
Context {A : Type}.
Import Utils.
Implicit Types (xs : list A) (size : nat).

Lemma iter_batch_loop_nil size : iter_batch_loop size (@nil A) = [].
Proof. simp iter_batch_loop. by destruct size. Qed.

Lemma iter_batch_loop_cons size x xs :
  0 < size ->
  iter_batch_loop size (x :: xs)
  = take size (x :: xs) :: iter_batch_loop size (drop size (x :: xs)).
Proof.
  intros Hsize. destruct size as [|n]; [lia|].
  etransitivity; [rewrite iter_batch_loop_equation_1; cbn; reflexivity|].
  reflexivity.
Qed.

(** Induction along the iterations of the loop. *)
Lemma iter_batch_loop_rect (size : nat) (P : list A -> list (list A) -> Prop) :
  0 < size ->
  P [] [] ->
  (forall xs bs, xs ≠ [] -> P (drop size xs) bs -> P xs (take size xs :: bs)) ->
  forall xs, P xs (iter_batch_loop size xs).
Proof.
  intros Hsize Hnil Hstep xs.
  remember (length xs) as n eqn:Hn. revert xs Hn.
  induction n as [n IH] using lt_wf_ind. intros xs ->.
  destruct xs as [|x xs].
  - by rewrite iter_batch_loop_nil.
  - rewrite iter_batch_loop_cons by done.
    apply Hstep; [done|].
    eapply IH; [|reflexivity].
    rewrite length_drop. simpl. lia.
Qed.






(** Every batch is non-empty and has at most [size] items; a batch that is
    followed by another one is full. *)
Lemma iter_batch_loop_sizes size xs :
  0 < size ->
  forall i b, iter_batch_loop size xs !! i = Some b ->
    0 < length b <= size /\
    (S i < length (iter_batch_loop size xs) -> length b = size).
Proof.
  intros Hsize.
  cut ((xs = [] -> iter_batch_loop size xs = []) /\
       forall i b, iter_batch_loop size xs !! i = Some b ->
         0 < length b <= size /\
         (S i < length (iter_batch_loop size xs) -> length b = size)).
  { by intros [_ ?]. }
  apply (iter_batch_loop_rect size
           (fun xs bs => (xs = [] -> bs = []) /\
              forall i b, bs !! i = Some b ->
              0 < length b <= size /\ (S i < length bs -> length b = size)));
    [done|done|].
  intros ys bs Hne [IHnil IH]. split; [done|].
  intros [|i] b Hb; simpl in *.
  - injection Hb as <-. rewrite length_take. split.
    + destruct ys; [done|simpl; lia].
    + intros Hlt.
      destruct (decide (size <= length ys)) as [|Hshort]; [lia|].
      rewrite IHnil in Hlt; [simpl in Hlt; lia|].
      apply drop_ge. lia.
  - destruct (IH i b Hb) as [H1 H2]. split; [done|]. intros. apply H2. lia.
Qed.


End IterBatchFacts.

(** The docstring example of [iter_batch]. *)
Example iter_batch_doctest :
  Utils.iter_batch [1; 2; 3; 4; 5]%Z 3 = Some [[1; 2; 3]; [4; 5]]%Z.
Proof. reflexivity. Qed.


(** ** The pipeline driver: which path [embed] takes *)

Section DriverFacts.
Import Embedding.
Variable onnx_embed : EmbeddingModel -> list string -> RawOutput.
Variable post : RawOutput -> PyError + list (list R).
Implicit Types (docs : documents) (batch_size : Z) (parallel cpu_count : option Z).

Lemma embed_documents_items cpu_count docs batch_size parallel :
  embed_documents cpu_count docs batch_size parallel = doc_items docs.
Proof. by destruct docs. Qed.

Lemma is_small_iff cpu_count docs batch_size parallel :
  (embed_prelude cpu_count docs batch_size parallel).1.2 = true
  <-> small_input docs batch_size.
Proof.
  destruct docs as [s|l|l]; simpl.
  - by case_decide.
  - case_decide; naive_solver.
  - naive_solver.
Qed.

Lemma embed_execution_small cpu_count docs batch_size parallel :
  small_input docs batch_size ->
  embed_execution cpu_count docs batch_size parallel = SingleProcess.
Proof.
  intros Hsmall. apply (is_small_iff cpu_count _ _ parallel) in Hsmall.
  unfold embed_execution.
  destruct (embed_prelude cpu_count docs batch_size parallel) as [[d sm] par].
  simpl in Hsmall. subst sm. by destruct par.
Qed.

Lemma embed_execution_not_small cpu_count docs batch_size parallel :
  ¬ small_input docs batch_size ->
  embed_execution cpu_count docs batch_size parallel =
  match (if decide (parallel = Some 0%Z) then cpu_count else parallel) with
  | None => SingleProcess
  | Some n => ParallelPool n
  end.
Proof.
  intros Hsmall. rewrite <- (is_small_iff cpu_count _ _ parallel) in Hsmall.
  unfold embed_execution.
  destruct (embed_prelude cpu_count docs batch_size parallel)
    as [[d sm] par] eqn:Hpre.
  simpl in Hsmall. apply not_true_is_false in Hsmall. subst sm.
  assert (par = if decide (parallel = Some 0%Z) then cpu_count else parallel)
    as <-; [|done].
  unfold embed_prelude in Hpre.
  destruct docs; simpl in Hpre; repeat case_decide; congruence.
Qed.

Lemma embed_execution_none cpu_count docs batch_size :
  embed_execution cpu_count docs batch_size None = SingleProcess.
Proof.
  unfold embed_execution, embed_prelude.
  destruct docs; simpl; by repeat case_decide.
Qed.

(** A trace of the single-process branch is the one
    [embed_single_process] computes. *)
Lemma embed_trace_single cpu_count capacity self docs batch_size parallel tr :
  embed_execution cpu_count docs batch_size parallel = SingleProcess ->
  embed_trace onnx_embed post cpu_count capacity self docs batch_size parallel tr ->
  tr = embed_single_process onnx_embed post self docs batch_size.
Proof.
  intros Hexec Htr. unfold embed_single_process.
  destruct Htr as [_ Hb|batches _ Hb|n batches outs Hn _ _].
  - rewrite embed_documents_items in Hb. by rewrite Hb.
  - rewrite embed_documents_items in Hb. by rewrite Hb.
  - congruence.
Qed.

Lemma embed_trace_pool cpu_count capacity self docs batch_size parallel n tr :
  embed_execution cpu_count docs batch_size parallel = ParallelPool n ->
  embed_trace onnx_embed post cpu_count capacity self docs batch_size parallel tr ->
  exists batches outs,
    iter_batch (doc_items docs) batch_size = Some batches /\
    ParallelProcessor.ordered_map
      (process onnx_embed
         (worker_start (_model_dir self) (self_model_name self) (_max_length self)))
      (Z.to_nat n) capacity batches outs /\
    tr = yield_from_each post outs.
Proof.
  intros Hexec Htr.
  destruct Htr as [Hs _|batches Hs _|m batches outs Hm Hb Hpool]; [congruence..|].
  assert (m = n) as -> by congruence.
  rewrite embed_documents_items in Hb. eauto.
Qed.

(** C3 (as amended). When the input does not count as small (it is not a
    single string, and not a list shorter than [batch_size]):
    [parallel = 0] is replaced by [os.cpu_count()] and, when that is a number
    [n], every trace of [embed] comes from the worker pool run with [n]
    workers; [parallel = N > 0] runs the pool with [N] workers; and
    [parallel = None] takes the single-process branch, whatever the input. *)
Theorem embed_parallel_degree cpu_count capacity self docs batch_size :
  ¬ small_input docs batch_size ->
  (forall n, cpu_count = Some n ->
     embed_execution cpu_count docs batch_size (Some 0%Z) = ParallelPool n /\
     forall tr,
       embed_trace onnx_embed post cpu_count capacity self docs batch_size
                   (Some 0%Z) tr ->
       exists batches outs,
         iter_batch (doc_items docs) batch_size = Some batches /\
         ParallelProcessor.ordered_map
           (process onnx_embed
              (worker_start (_model_dir self) (self_model_name self)
                            (_max_length self)))
           (Z.to_nat n) capacity batches outs /\
         tr = yield_from_each post outs) /\
  (forall N, (0 < N)%Z ->
     embed_execution cpu_count docs batch_size (Some N) = ParallelPool N /\
     forall tr,
       embed_trace onnx_embed post cpu_count capacity self docs batch_size
                   (Some N) tr ->
       exists batches outs,
         iter_batch (doc_items docs) batch_size = Some batches /\
         ParallelProcessor.ordered_map
           (process onnx_embed
              (worker_start (_model_dir self) (self_model_name self)
                            (_max_length self)))
           (Z.to_nat N) capacity batches outs /\
         tr = yield_from_each post outs) /\
  embed_execution cpu_count docs batch_size None = SingleProcess /\
  (forall tr,
     embed_trace onnx_embed post cpu_count capacity self docs batch_size None tr ->
     tr = embed_single_process onnx_embed post self docs batch_size).
Proof.
  intros Hbig. repeat split.
  - rewrite embed_execution_not_small by done.
    rewrite decide_True by done. by subst.
  - intros tr. apply embed_trace_pool.
    rewrite embed_execution_not_small by done.
    rewrite decide_True by done. by subst.
  - rewrite embed_execution_not_small by done.
    rewrite decide_False; [done|]. intros [= ->]. lia.
  - intros tr. apply embed_trace_pool.
    rewrite embed_execution_not_small by done.
    rewrite decide_False; [done|]. intros [= ->]. lia.
  - apply embed_execution_none.
  - intros tr. apply embed_trace_single, embed_execution_none.
Qed.

(** C4 (as amended). When [documents] is a single string, or a list with
    fewer than [batch_size] items, [embed] takes the single-process branch
    whatever [parallel] is, and its trace is that of the single-process
    branch. *)
Theorem embed_small_input_single cpu_count capacity self docs batch_size parallel :
  small_input docs batch_size ->
  embed_execution cpu_count docs batch_size parallel = SingleProcess /\
  forall tr,
    embed_trace onnx_embed post cpu_count capacity self docs batch_size parallel tr ->
    tr = embed_single_process onnx_embed post self docs batch_size.
Proof.
  intros Hsmall. split; [by apply embed_execution_small|].
  intros tr. by apply embed_trace_single, embed_execution_small.
Qed.

End DriverFacts.

Lemma embed_parallel_degree_witness :
  ¬ small_input (Embedding.DocList ["hello"; "world"]) 1 /\
  Embedding.embed_execution (Some 8%Z) (Embedding.DocList ["hello"; "world"]) 1
    (Some 0%Z) = Embedding.ParallelPool 8 /\
  Embedding.embed_execution (Some 8%Z) (Embedding.DocList ["hello"; "world"]) 1
    (Some 2%Z) = Embedding.ParallelPool 2 /\
  Embedding.embed_execution (Some 8%Z) (Embedding.DocList ["hello"; "world"]) 1
    None = Embedding.SingleProcess.
Proof.
  assert (¬ small_input (Embedding.DocList ["hello"; "world"]) 1) as Hbig
    by (simpl; lia).
  split; [exact Hbig|].
  destruct (embed_parallel_degree Samples.toy_onnx_embed
              (Embedding.flag_post) (Some 8%Z) 4 Samples.toy_self
              (Embedding.DocList ["hello"; "world"]) 1 Hbig)
    as (H0 & HN & Hnone & _).
  split; [exact (proj1 (H0 8%Z eq_refl))|].
  split; [|exact Hnone].
  apply (HN 2%Z). lia.
Defined.

(** C3 as stated fails: a single string with [batch_size = 1] is one item,
    which is not fewer than [batch_size], and [parallel = 0] still leads
    to the single-process branch. *)
Lemma embed_parallel_zero_single_string :
  ¬ (Z.of_nat (length (Embedding.doc_items (Embedding.DocStr "hello"))) < 1)%Z /\
  Embedding.embed_execution (Some 8%Z) (Embedding.DocStr "hello") 1 (Some 0%Z)
  = Embedding.SingleProcess /\
  Embedding.embed_execution (Some 8%Z) (Embedding.DocStr "hello") 1 (Some 0%Z)
  ≠ Embedding.ParallelPool 8.
Proof. split; [simpl; lia|]. split; [reflexivity|discriminate]. Qed.

Lemma embed_small_input_single_witness :
  small_input (Embedding.DocList ["hello"]) 256 /\
  Embedding.embed_execution (Some 8%Z) (Embedding.DocList ["hello"]) 256
    (Some 2%Z) = Embedding.SingleProcess.
Proof.
  assert (small_input (Embedding.DocList ["hello"]) 256) as Hsmall
    by (simpl; lia).
  split; [exact Hsmall|].
  exact (proj1 (embed_small_input_single Samples.toy_onnx_embed
                  Embedding.flag_post (Some 8%Z) 4 Samples.toy_self
                  (Embedding.DocList ["hello"]) 256 (Some 2%Z) Hsmall)).
Defined.

(** C4 as stated fails: an iterable that is not a list (the generator that
    [passage_embed] hands to [embed], a tuple) with a single item and
    [batch_size = 256] has fewer items than [batch_size], and [parallel = 2]
    leads to the worker pool. *)
Lemma embed_short_generator_pool :
  (Z.of_nat (length (Embedding.doc_items (Embedding.DocIterable ["hello"]))) < 256)%Z /\
  Embedding.embed_execution (Some 8%Z) (Embedding.DocIterable ["hello"]) 256
    (Some 2%Z) = Embedding.ParallelPool 2 /\
  Embedding.embed_execution (Some 8%Z) (Embedding.DocIterable ["hello"]) 256
    (Some 2%Z) ≠ Embedding.SingleProcess.
Proof. split; [simpl; lia|]. split; [reflexivity|discriminate]. Qed.

(** ** [SparseTextEmbedding.embed] *)

(** With [lazy_load] set and the model not yet loaded, [parallel = 0] is
    neither [None] (so nothing is loaded) nor truthy (so the parallel
    entry point is not taken): the call ends in the attribute lookup on
    [None]. *)
Lemma sparse_embed_lazy_parallel_zero :
  Sparse.embed true false (Some 0%Z) = (false, Sparse.AttributeError).
Proof. reflexivity. Qed.

Lemma sparse_embed_parallel_positive lazy_load model_loaded N :
  (N ≠ 0)%Z ->
  (Sparse.embed lazy_load model_loaded (Some N)).2
  = Sparse.EmbedDocumentsParallel N.
Proof.
  intros HN. unfold Sparse.embed. simpl.
  destruct (Z.eqb_spec N 0); [done|].
  by destruct lazy_load, model_loaded.
Qed.

(** ** [LateInteractionImageEmbeddingBase.query_embed] *)

Section QueryEmbedFacts.
Import LateInteraction.
Context {E : Type}.

Lemma length_chars s : length (chars s) = String.length s.
Proof.
  unfold chars. rewrite length_map.
  induction s as [|c s IH]; simpl; [done|by rewrite IH].
Qed.

(** C10 (as amended). For a string query, [query_embed] yields all that
    [embed([query])] yields and then all that [embed(query)] yields, the
    string itself being the iterable of the second call; with an [embed]
    that yields one embedding for each item it iterates, that is one
    embedding for the query and one for each of its characters, which is
    more than one embedding exactly when the string is not empty. *)
Theorem query_embed_str (embed : embed_arg -> list E) (embed_one : string -> E)
    (s : string) :
  query_embed embed (QueryStr s)
  = embed (ArgIterable [s]) ++ embed (ArgStr s) /\
  query_embed (embed_each embed_one) (QueryStr s)
  = embed_one s :: map embed_one (chars s) /\
  length (query_embed (embed_each embed_one) (QueryStr s)) = 1 + String.length s /\
  (1 < length (query_embed (embed_each embed_one) (QueryStr s)) <-> s ≠ EmptyString).
Proof.
  split; [reflexivity|]. split; [reflexivity|].
  assert (length (query_embed (embed_each embed_one) (QueryStr s))
          = 1 + String.length s) as Hlen.
  { unfold query_embed, embed_each. simpl.
    by rewrite length_map, length_chars. }
  split; [exact Hlen|]. rewrite Hlen.
  destruct s; simpl; split; intros; try done; lia.
Qed.

End QueryEmbedFacts.

(** C10 as stated fails for the empty string: iterating it gives no item,
    so an [embed] that yields one embedding per item leaves exactly one
    embedding, the one of [[query]]. *)
Lemma query_embed_empty_string_one :
  LateInteraction.query_embed (LateInteraction.embed_each String.length)
    (LateInteraction.QueryStr EmptyString) = [0] /\
  ¬ (1 < length (LateInteraction.query_embed
                   (LateInteraction.embed_each String.length)
                   (LateInteraction.QueryStr EmptyString))).
Proof. split; [reflexivity|simpl; lia]. Qed.

(** ** Matryoshka dimension adjustment *)

Section MatryoshkaFacts.
Import Utils.
Context {A : Type} (zero : A).
Implicit Types (embeddings : ndarray A) (embedding_size : Z).

Lemma slice_stop_nonneg n stop :
  (0 <= stop <= Z.of_nat n)%Z -> slice_stop n stop = Z.to_nat stop.
Proof. intros Hs. unfold slice_stop. case_decide; lia. Qed.

Lemma slice_last_wf embeddings stop :
  ndarray_wf embeddings -> ndarray_wf (slice_last embeddings stop).
Proof.
  intros [Hlen Hall]. split; simpl.
  - by rewrite length_map.
  - apply Forall_map. eapply Forall_impl; [exact Hall|].
    intros v Hv. simpl. rewrite length_take, Hv.
    unfold slice_stop. case_decide; lia.
Qed.

Lemma np_pad_last_wf embeddings before after :
  ndarray_wf embeddings -> ndarray_wf (np_pad_last zero embeddings before after).
Proof.
  intros [Hlen Hall]. split; simpl.
  - by rewrite length_map.
  - apply Forall_map. eapply Forall_impl; [exact Hall|].
    intros v Hv. simpl in *. rewrite !length_app, !length_replicate. lia.
Qed.

(** C8. For an array and a requested size [embedding_size >= 0], the
    result keeps the leading axes and has [embedding_size] as last axis;
    each of its vectors is the first [embedding_size] components of the
    original one when the request is smaller than the native dimension, the
    original followed by zeros up to [embedding_size] when it is larger, and
    the array is returned unchanged when they are equal. *)
Theorem adjust_matryoshka_embedding_spec embeddings embedding_size :
  ndarray_wf embeddings ->
  (0 <= embedding_size)%Z ->
  let r := adjust_matryoshka_embedding zero embeddings embedding_size in
  let n := Z.to_nat embedding_size in
  let D := last_dim embeddings in
  ndarray_wf r /\
  lead_shape r = lead_shape embeddings /\
  last_dim r = n /\
  length (vectors r) = length (vectors embeddings) /\
  (forall i v, vectors embeddings !! i = Some v ->
     exists v', vectors r !! i = Some v' /\ length v' = n /\
       (n < D -> v' = take n v) /\
       (D < n -> v' = v ++ replicate (n - D) zero) /\
       (n = D -> v' = v)) /\
  (n = D -> r = embeddings).
Proof.
  intros Hwf Hsize r n D. subst r.
  unfold adjust_matryoshka_embedding.
  destruct (decide (embedding_size < Z.of_nat (last_dim embeddings))%Z) as [Hlt|Hge].
  - (* truncation *)
    assert (slice_stop (last_dim embeddings) embedding_size = n) as Hk
      by (apply slice_stop_nonneg; lia).
    split; [by apply slice_last_wf|]. unfold slice_last. rewrite Hk. simpl.
    split; [done|]. split; [done|]. split; [by rewrite length_map|].
    split; [|subst n D; lia].
    intros i v Hv. exists (take n v). rewrite list_lookup_fmap, Hv. simpl.
    split; [done|].
    destruct Hwf as [_ Hall].
    assert (length v = D) as Hlen.
    { eapply (Forall_lookup_1 _ _ _ _ Hall Hv). }
    split; [rewrite length_take; subst n D; lia|].
    split; [done|]. subst n D. split; intros; lia.
  - destruct (decide (embedding_size > Z.of_nat (last_dim embeddings))%Z) as [Hgt|Heq].
    + (* zero padding *)
      split; [by apply np_pad_last_wf|]. unfold np_pad_last. simpl.
      split; [done|]. split; [subst n; lia|]. split; [by rewrite length_map|].
      split; [|subst n D; lia].
      intros i v Hv. rewrite list_lookup_fmap, Hv. simpl.
      destruct Hwf as [_ Hall].
      assert (length v = D) as Hlen.
      { eapply (Forall_lookup_1 _ _ _ _ Hall Hv). }
      eexists. split; [done|].
      split; [rewrite length_app, length_replicate; subst n D; lia|].
      split; [subst n D; lia|]. split; [|subst n D; lia].
      intros _. f_equal. f_equal. subst n D. lia.
    + (* same size *)
      split; [done|]. split; [done|]. split; [subst n; lia|]. split; [done|].
      split; [|done].
      intros i v Hv. exists v. split; [done|].
      destruct Hwf as [_ Hall].
      assert (length v = D) as Hlen.
      { eapply (Forall_lookup_1 _ _ _ _ Hall Hv). }
      split; [subst n D; lia|]. split; [subst n D; lia|].
      split; [subst n D; lia|done].
Qed.

End MatryoshkaFacts.

Lemma adjust_matryoshka_embedding_spec_witness :
  Utils.ndarray_wf (Utils.mk_ndarray [2] 3 [[1; 2; 3]; [4; 5; 6]]%Z) /\
  (0 <= 2)%Z /\
  Utils.adjust_matryoshka_embedding 0%Z
    (Utils.mk_ndarray [2] 3 [[1; 2; 3]; [4; 5; 6]]%Z) 2
  = Utils.mk_ndarray [2] 2 [[1; 2]; [4; 5]]%Z /\
  Utils.ndarray_wf
    (Utils.adjust_matryoshka_embedding 0%Z
       (Utils.mk_ndarray [2] 3 [[1; 2; 3]; [4; 5; 6]]%Z) 2).
Proof.
  assert (Utils.ndarray_wf (Utils.mk_ndarray [2] 3 [[1; 2; 3]; [4; 5; 6]]%Z))
    as Hwf by (split; [reflexivity|repeat constructor]).
  split; [exact Hwf|]. split; [lia|]. split; [reflexivity|].
  apply (adjust_matryoshka_embedding_spec 0%Z
           (Utils.mk_ndarray [2] 3 [[1; 2; 3]; [4; 5; 6]]%Z) 2 Hwf). lia.
Defined.

Example adjust_matryoshka_embedding_pad :
  Utils.adjust_matryoshka_embedding 0%Z
    (Utils.mk_ndarray [2] 3 [[1; 2; 3]; [4; 5; 6]]%Z) 5
  = Utils.mk_ndarray [2] 5 [[1; 2; 3; 0; 0]; [4; 5; 6; 0; 0]]%Z.
Proof. reflexivity. Qed.

(** ** The worker pool *)

Section PoolFacts.
Import ParallelProcessor.
Context {T U : Type}.
Variable process : list (nat * T) -> list (nat * U).
Variable run : T -> U.
Variable capacity : nat.

(** The worker contract: one result for each task, at the task's position. *)
Hypothesis process_one : forall idx b, process [(idx, b)] = [(idx, run b)].
Hypothesis capacity_pos : 0 < capacity.

Implicit Types (s : pool_state (T:=T) (U:=U)) (all : list T).

Local Abbreviation pool_inv := (ParallelProcessor.pool_inv run).

Lemma pool_inv_init num_workers all : pool_inv all (pool_init num_workers all).
Proof.
  split; simpl.
  - done.
  - lia.
  - lia.
  - done.
  - intros w q idx b Hq Hin.
    apply lookup_replicate in Hq as [-> _]. by apply elem_of_nil in Hin.
  - intros idx out Hbuf. by rewrite lookup_empty in Hbuf.
  - intros idx. lia.
Qed.

Lemma pool_inv_dispatch all s b rest w q :
  pool_inv all s ->
  input s = b :: rest ->
  queues s !! w = Some q ->
  pool_inv all
    (mk_pool rest (S (next_pos s)) (<[w := q ++ [(next_pos s, b)]]> (queues s))
             (buffer s) (next_due s) (yielded s)).
Proof.
  intros [Hin Hpos Hdue Hy Hq Hb Ho] Hi Hw.
  assert (all !! next_pos s = Some b) as Hb0.
  { rewrite <- (Nat.add_0_r (next_pos s)), <- lookup_drop, <- Hin, Hi. done. }
  pose proof (lookup_lt_Some _ _ _ Hb0) as Hlt.
  pose proof (lookup_lt_Some _ _ _ Hw) as Hwlt.
  split; simpl.
  - replace (S (next_pos s)) with (next_pos s + 1) by lia.
    rewrite <- drop_drop, <- Hin, Hi. done.
  - lia.
  - lia.
  - done.
  - intros w' q' idx' b' Hq' Hin'.
    destruct (decide (w = w')) as [<-|Hne].
    + rewrite list_lookup_insert_eq in Hq' by done.
      injection Hq' as <-. apply elem_of_app in Hin' as [Hin'|Hin'].
      * destruct (Hq _ _ _ _ Hw Hin'). split; [done|lia].
      * apply list_elem_of_singleton in Hin'. injection Hin' as -> ->.
        split; [done|lia].
    + rewrite list_lookup_insert_ne in Hq' by done.
      destruct (Hq _ _ _ _ Hq' Hin'). split; [done|lia].
  - intros idx' out Hbuf. destruct (Hb _ _ Hbuf) as [? ?]. split; [lia|done].
  - intros idx' Hrange.
    destruct (decide (idx' = next_pos s)) as [->|Hne].
    + right. exists w, (q ++ [(next_pos s, b)]), b. split.
      * by apply list_lookup_insert_eq.
      * apply elem_of_app. right. by apply list_elem_of_singleton.
    + destruct (Ho idx') as [?|(w' & q' & b' & Hq' & Hin')]; [lia|by left|].
      right. destruct (decide (w = w')) as [<-|Hnw].
      * exists w, (q ++ [(next_pos s, b)]), b'. split.
        -- by apply list_lookup_insert_eq.
        -- apply elem_of_app. left. congruence.
      * exists w', q', b'. split; [|done].
        by rewrite list_lookup_insert_ne.
Qed.

Lemma pool_inv_work all s w idx b q :
  pool_inv all s ->
  queues s !! w = Some ((idx, b) :: q) ->
  pool_inv all
    (mk_pool (input s) (next_pos s) (<[w := q]> (queues s))
             (receive (process [(idx, b)]) (buffer s)) (next_due s) (yielded s)).
Proof.
  intros [Hin Hpos Hdue Hy Hq Hb Ho] Hw.
  assert (all !! idx = Some b /\ idx < next_pos s) as [Hidx Hlt].
  { eapply Hq; [exact Hw|]. by left. }
  pose proof (lookup_lt_Some _ _ _ Hw) as Hwlt.
  rewrite process_one. simpl.
  split; simpl.
  - done.
  - done.
  - done.
  - done.
  - intros w' q' idx' b' Hq' Hin'.
    destruct (decide (w = w')) as [<-|Hne].
    + rewrite list_lookup_insert_eq in Hq' by done.
      injection Hq' as <-. eapply Hq; [exact Hw|]. by right.
    + rewrite list_lookup_insert_ne in Hq' by done. by eapply Hq.
  - intros idx' out Hbuf.
    destruct (decide (idx = idx')) as [<-|Hne].
    + rewrite lookup_insert_eq in Hbuf. injection Hbuf as <-. eauto.
    + rewrite lookup_insert_ne in Hbuf by done. by apply Hb.
  - intros idx' Hrange.
    destruct (decide (idx = idx')) as [<-|Hne].
    + left. rewrite lookup_insert_eq. eauto.
    + destruct (Ho idx' Hrange) as [?|(w' & q' & b' & Hq' & Hin')].
      * left. by rewrite lookup_insert_ne.
      * right. destruct (decide (w = w')) as [<-|Hnw].
        -- exists w, q, b'. split; [by apply list_lookup_insert_eq|].
           rewrite Hw in Hq'. injection Hq' as <-.
           apply elem_of_cons in Hin' as [Heq|?]; [|done].
           injection Heq as -> ->. done.
        -- exists w', q', b'. split; [|done].
           by rewrite list_lookup_insert_ne.
Qed.

Lemma pool_inv_yield all s out :
  pool_inv all s ->
  buffer s !! next_due s = Some out ->
  pool_inv all
    (mk_pool (input s) (next_pos s) (queues s) (delete (next_due s) (buffer s))
             (S (next_due s)) (yielded s ++ [out])).
Proof.
  intros [Hin Hpos Hdue Hy Hq Hb Ho] Hout.
  destruct (Hb _ _ Hout) as (Hlt & b & Hidx & ->).
  split; simpl.
  - done.
  - done.
  - lia.
  - rewrite Hy. rewrite (take_S_r _ _ _ Hidx), map_app. done.
  - done.
  - intros idx' out Hbuf.
    apply lookup_delete_Some in Hbuf as [_ Hbuf]. by apply Hb.
  - intros idx' Hrange.
    destruct (Ho idx') as [?|?]; [lia| |by right].
    left. rewrite lookup_delete_ne by lia. done.
Qed.

Lemma pool_inv_step all s s' :
  pool_inv all s -> pool_step process capacity s s' -> pool_inv all s'.
Proof.
  intros Hinv Hstep.
  destruct Hstep as [s b rest w q Hi Hw Hcap|s w [idx b] q Hw|s out Hout].
  - by apply pool_inv_dispatch.
  - by apply pool_inv_work.
  - by apply pool_inv_yield.
Qed.

Lemma pool_inv_reachable num_workers all s :
  rtc (pool_step process capacity) (pool_init num_workers all) s ->
  pool_inv all s.
Proof.
  intros Hrtc. revert s Hrtc.
  apply (rtc_ind_r (R:=pool_step process capacity) (pool_inv all)).
  - apply pool_inv_init.
  - intros s1 s2 _ Hstep IH. by eapply pool_inv_step.
Qed.

(** Safety: when the pool is finished, what it has yielded is the
    sequential map over all batches. *)
Lemma pool_finished_yielded all s :
  pool_inv all s -> pool_finished s -> yielded s = map run all.
Proof.
  intros Hinv [Hnil Heq]. rewrite (inv_yielded _ _ _ Hinv).
  pose proof (inv_input _ _ _ Hinv) as Hin. rewrite Hnil in Hin.
  pose proof (inv_pos _ _ _ Hinv).
  assert (length (drop (next_pos s) all) = 0) as Hlen by by rewrite <- Hin.
  rewrite length_drop in Hlen.
  rewrite take_ge by lia. done.
Qed.

Lemma queued_insert (qs : list (list (nat * T))) w q q' :
  qs !! w = Some q ->
  queued (<[w := q']> qs) + length q = queued qs + length q'.
Proof.
  revert w. induction qs as [|q0 qs IH]; intros [|w] Hw; simpl in *; try done.
  - injection Hw as ->. lia.
  - specialize (IH w Hw). lia.
Qed.

(** Every step uses up fuel, so the pool cannot run forever. *)
Lemma pool_step_fuel s s' :
  pool_step process capacity s s' -> pool_fuel s' < pool_fuel s.
Proof.
  intros Hstep.
  destruct Hstep as [s b rest w q Hi Hw Hcap|s w [idx b] q Hw|s out Hout];
    unfold pool_fuel; simpl.
  - pose proof (queued_insert _ _ _ (q ++ [(next_pos s, b)]) Hw) as Hq.
    rewrite length_app in Hq. simpl in Hq. rewrite Hi. simpl. lia.
  - pose proof (queued_insert _ _ _ q Hw) as Hq. simpl in Hq.
    rewrite process_one. simpl. rewrite map_size_insert.
    destruct (buffer s !! idx); simpl; lia.
  - rewrite map_size_delete, Hout. simpl.
    assert (size (buffer s) ≠ 0); [|lia].
    intros Hz. apply map_size_empty_iff in Hz.
    rewrite Hz, lookup_empty in Hout. done.
Qed.

Lemma pool_step_workers s s' :
  pool_step process capacity s s' -> length (queues s') = length (queues s).
Proof.
  intros Hstep. destruct Hstep; simpl; by rewrite ?length_insert.
Qed.

(** No deadlock: a pool with at least one worker that is not finished can
    take a step. *)
Lemma pool_progress all s :
  pool_inv all s -> 0 < length (queues s) -> ¬ pool_finished s ->
  exists s', pool_step process capacity s s'.
Proof.
  intros Hinv Hworkers Hnot.
  destruct (decide (next_due s = next_pos s)) as [Heq|Hne].
  - destruct (input s) as [|b rest] eqn:Hi; [by destruct Hnot|].
    destruct (queues s) as [|q qs] eqn:Hq; [simpl in Hworkers; lia|].
    eexists. eapply (step_dispatch _ _ s b rest 0 q); [done|by rewrite Hq|lia].
  - pose proof (inv_due _ _ _ Hinv).
    destruct (inv_outstanding _ _ _ Hinv (next_due s))
      as [[out Hout]|(w & q & b & Hq & Hin)]; [lia| |].
    + eexists. by eapply step_yield.
    + destruct q as [|task q]; [by apply elem_of_nil in Hin|].
      eexists. by eapply step_work.
Qed.

(** From every state that satisfies the invariant the pool reaches a
    finished state. *)
Lemma pool_runs_to_end all s :
  pool_inv all s -> 0 < length (queues s) ->
  exists s', rtc (pool_step process capacity) s s' /\ pool_finished s'.
Proof.
  remember (pool_fuel s) as n eqn:Hn. revert s Hn.
  induction n as [n IH] using lt_wf_ind. intros s -> Hinv Hworkers.
  destruct (decide (next_due s = next_pos s)) as [Heq|Hne];
    [destruct (input s) as [|b rest] eqn:Hi|].
  - exists s. split; [apply rtc_refl|]. by split.
  - destruct (pool_progress all s Hinv Hworkers) as [s' Hstep].
    { intros [Hnil _]. congruence. }
    destruct (IH (pool_fuel s') (pool_step_fuel _ _ Hstep) s' eq_refl)
      as (s'' & Hrtc & Hfin).
    + by eapply pool_inv_step.
    + by rewrite (pool_step_workers _ _ Hstep).
    + exists s''. split; [by eapply rtc_l|done].
  - destruct (pool_progress all s Hinv Hworkers) as [s' Hstep].
    { intros [_ ?]. done. }
    destruct (IH (pool_fuel s') (pool_step_fuel _ _ Hstep) s' eq_refl)
      as (s'' & Hrtc & Hfin).
    + by eapply pool_inv_step.
    + by rewrite (pool_step_workers _ _ Hstep).
    + exists s''. split; [by eapply rtc_l|done].
Qed.

(** [ordered_map] with at least one worker produces an output sequence, and
    the only one it can produce is the sequential map over the batches. *)
Lemma ordered_map_sequential num_workers batches :
  0 < num_workers ->
  (exists outs, ordered_map process num_workers capacity batches outs) /\
  (forall outs, ordered_map process num_workers capacity batches outs ->
                outs = map run batches).
Proof.
  intros Hworkers. split.
  - destruct (pool_runs_to_end batches (pool_init num_workers batches))
      as (s & Hrtc & Hfin).
    + apply pool_inv_init.
    + simpl. by rewrite length_replicate.
    + exists (yielded s), s. done.
  - intros outs (s & Hrtc & Hfin & <-).
    apply pool_finished_yielded; [|done].
    by eapply pool_inv_reachable.
Qed.

End PoolFacts.

(** ** Single-process and multi-process execution of [embed] *)

Section EmbedFacts.
Import Embedding.
Variable onnx_embed : EmbeddingModel -> list string -> RawOutput.
Variable post : RawOutput -> PyError + list (list R).

(** [EmbeddingWorker.process] sends back one result for each task, in the
    order of the tasks and at their positions. *)
Lemma process_map m (tasks : list (nat * list string)) :
  process onnx_embed m tasks
  = map (fun task => (task.1, onnx_embed m task.2)) tasks.
Proof.
  unfold process. apply map_ext. intros [idx batch]. simpl.
  by destruct (onnx_embed m batch).
Qed.

Lemma process_positions m (tasks : list (nat * list string)) :
  map fst (process onnx_embed m tasks) = map fst tasks.
Proof. rewrite process_map, map_map. done. Qed.

Lemma process_one_task m idx batch :
  process onnx_embed m [(idx, batch)] = [(idx, onnx_embed m batch)].
Proof. by rewrite process_map. Qed.

Lemma yield_from_each_map {X Y A} (f : X -> Y) (body : Y -> PyError + list A) xs :
  yield_from_each body (map f xs) = yield_from_each (fun x => body (f x)) xs.
Proof.
  induction xs as [|x xs IH]; simpl; [done|].
  destruct (body (f x)); [done|]. by rewrite IH.
Qed.

Lemma yield_from_each_ext {X A} (f g : X -> PyError + list A) xs :
  (forall x, f x = g x) -> yield_from_each f xs = yield_from_each g xs.
Proof.
  intros Hfg. induction xs as [|x xs IH]; simpl; [done|].
  rewrite Hfg. destruct (g x); [done|]. by rewrite IH.
Qed.

Lemma embed_execution_pool cpu_count docs batch_size parallel n :
  embed_execution cpu_count docs batch_size parallel = ParallelPool n ->
  (if decide (parallel = Some 0%Z) then cpu_count else parallel) = Some n.
Proof.
  unfold embed_execution, embed_prelude.
  destruct docs; simpl; repeat case_decide;
    repeat (match goal with |- context [match ?x with _ => _ end] =>
                              destruct x end); congruence.
Qed.

(** C2. With an inference engine whose output does not depend on the
    thread count of the session, a positive [batch_size] and [parallel]
    either [None], [0] or positive, [embed] produces a trace, and every
    trace it can produce, whichever branch is taken and however the pool
    schedules its workers, is the trace of the single-process branch on the
    same input: the same vectors in the same order.  On the way: the worker
    sends back one result for each task, in the order of the tasks and at
    their positions, and the only output of [ordered_map] is the map of the
    inference over the batches, one after the other. *)
Theorem embed_parallel_same_as_single
    (model_name model_dir : string) (max_length : Z) (threads : option Z)
    (cpu_count : option Z) (capacity : nat)
    (docs : documents) (batch_size : Z) (parallel : option Z) :
  (forall p n l t1 t2 batch,
     onnx_embed (mk_model p n l t1) batch = onnx_embed (mk_model p n l t2) batch) ->
  0 < capacity ->
  (0 < batch_size)%Z ->
  (forall c, cpu_count = Some c -> (0 < c)%Z) ->
  (forall n, parallel = Some n -> (0 <= n)%Z) ->
  let self := embedding_init model_name model_dir max_length threads in
  (exists tr, embed_trace onnx_embed post cpu_count capacity self docs
                          batch_size parallel tr) /\
  (forall tr, embed_trace onnx_embed post cpu_count capacity self docs
                          batch_size parallel tr ->
     tr = embed_single_process onnx_embed post self docs batch_size) /\
  (forall m tasks,
     process onnx_embed m tasks
     = map (fun task => (task.1, onnx_embed m task.2)) tasks) /\
  (forall m num_workers batches outs,
     0 < num_workers ->
     ParallelProcessor.ordered_map (process onnx_embed m) num_workers capacity
       batches outs ->
     outs = map (onnx_embed m) batches).
Proof.
  intros Hthreads Hcap Hsize Hcpu Hpar self.
  cut ((exists tr, embed_trace onnx_embed post cpu_count capacity self docs
                          batch_size parallel tr) /\
       (forall tr, embed_trace onnx_embed post cpu_count capacity self docs
                          batch_size parallel tr ->
          tr = embed_single_process onnx_embed post self docs batch_size)).
  { intros [Hex Huniq]. split; [exact Hex|]. split; [exact Huniq|].
    split; [apply process_map|].
    intros m num_workers batches outs Hn Houts.
    by apply (ordered_map_sequential (process onnx_embed m) (onnx_embed m)
                capacity (process_one_task m) Hcap num_workers batches). }
  assert (forall n, embed_execution cpu_count docs batch_size parallel
                    = ParallelPool n -> 0 < Z.to_nat n) as Hworkers.
  { intros n Hn. apply embed_execution_pool in Hn.
    case_decide as Hz.
    - specialize (Hcpu n Hn). lia.
    - specialize (Hpar n Hn). assert (n ≠ 0%Z) by congruence. lia. }
  assert (exists batches,
            iter_batch (embed_documents cpu_count docs batch_size parallel)
                       batch_size = Some batches) as [batches Hb].
  { unfold iter_batch, Utils.iter_batch. rewrite decide_False by lia. eauto. }
  split.
  - destruct (embed_execution cpu_count docs batch_size parallel) as [|n] eqn:He.
    + eexists. by eapply embed_single.
    + destruct (ordered_map_sequential
                  (process onnx_embed
                     (worker_start (_model_dir self) (self_model_name self)
                                   (_max_length self)))
                  (onnx_embed (worker_start (_model_dir self)
                                 (self_model_name self) (_max_length self)))
                  capacity (process_one_task _) Hcap (Z.to_nat n) batches)
        as [[outs Houts] _]; [by apply Hworkers|].
      eexists. by eapply embed_pool.
  - intros tr Htr.
    destruct (embed_execution cpu_count docs batch_size parallel) as [|n] eqn:He.
    + by eapply embed_trace_single.
    + destruct (embed_trace_pool _ _ _ _ _ _ _ _ _ _ He Htr)
        as (bs & outs & Hbs & Hpool & ->).
      unfold embed_single_process. rewrite Hbs.
      destruct (ordered_map_sequential
                  (process onnx_embed
                     (worker_start (_model_dir self) (self_model_name self)
                                   (_max_length self)))
                  (onnx_embed (worker_start (_model_dir self)
                                 (self_model_name self) (_max_length self)))
                  capacity (process_one_task _) Hcap (Z.to_nat n) bs)
        as [_ Hseq]; [by apply Hworkers|].
      rewrite (Hseq outs Hpool), yield_from_each_map.
      (* the worker's session and the caller's differ in threads only *)
      apply yield_from_each_ext. intros batch.
      unfold worker_start, self, embedding_init. simpl.
      by rewrite (Hthreads _ _ _ _ threads).
Qed.

End EmbedFacts.

Lemma embed_parallel_same_as_single_witness :
  (forall p n l t1 t2 batch,
     Samples.toy_onnx_embed (Embedding.mk_model p n l t1) batch
     = Samples.toy_onnx_embed (Embedding.mk_model p n l t2) batch) /\
  0 < 4 /\ (0 < 1)%Z /\
  (forall c, Some 8%Z = Some c -> (0 < c)%Z) /\
  (forall n, Some 2%Z = Some n -> (0 <= n)%Z) /\
  (exists tr,
     Embedding.FlagEmbedding_embed Samples.toy_onnx_embed (Some 8%Z) 4
       Samples.toy_self (Embedding.DocList ["hello"; "world"]) 1 (Some 2%Z) tr) /\
  (forall tr,
     Embedding.FlagEmbedding_embed Samples.toy_onnx_embed (Some 8%Z) 4
       Samples.toy_self (Embedding.DocList ["hello"; "world"]) 1 (Some 2%Z) tr ->
     tr = Embedding.embed_single_process Samples.toy_onnx_embed
            Embedding.flag_post Samples.toy_self
            (Embedding.DocList ["hello"; "world"]) 1).
Proof.
  assert (forall p n l t1 t2 batch,
     Samples.toy_onnx_embed (Embedding.mk_model p n l t1) batch
     = Samples.toy_onnx_embed (Embedding.mk_model p n l t2) batch) as H1
    by reflexivity.
  assert (0 < 4) as H2 by lia.
  assert (0 < 1)%Z as H3 by lia.
  assert (forall c, Some 8%Z = Some c -> (0 < c)%Z) as H4
    by (intros c [= <-]; lia).
  assert (forall n, Some 2%Z = Some n -> (0 <= n)%Z) as H5
    by (intros n [= <-]; lia).
  split; [exact H1|]. split; [exact H2|]. split; [exact H3|].
  split; [exact H4|]. split; [exact H5|].
  destruct (embed_parallel_same_as_single Samples.toy_onnx_embed
              Embedding.flag_post "BAAI/bge-small-en-v1.5" "/tmp/fastembed_cache"
              512 None (Some 8%Z) 4 (Embedding.DocList ["hello"; "world"]) 1
              (Some 2%Z) H1 H2 H3 H4 H5) as (Hex & Huniq & _).
  split; [exact Hex|exact Huniq].
Defined.

(** ** L2 normalization *)

Section NormalizeFacts.
Import Utils.
Open Scope R_scope.

Lemma Rsum_squares_nonneg (v : list R) : 0 <= Rsum (map (fun x => x * x) v).
Proof.
  induction v as [|x v IH]; simpl; [lra|].
  pose proof (Rle_0_sqr x) as Hx. unfold Rsqr in Hx. lra.
Qed.

Lemma l2_norm_nonneg v : 0 <= l2_norm v.
Proof. apply sqrt_pos. Qed.

Lemma Rsum_squares_scaled (v : list R) c :
  c <> 0 ->
  Rsum (map (fun x => x * x) (map (fun x => x / c) v))
  = Rsum (map (fun x => x * x) v) / (c * c).
Proof.
  intros Hc. induction v as [|x v IH]; simpl.
  - field. done.
  - rewrite IH. field. done.
Qed.

Lemma l2_norm_scaled v c :
  0 < c -> l2_norm (map (fun x => x / c) v) = l2_norm v / c.
Proof.
  intros Hc. unfold l2_norm.
  rewrite Rsum_squares_scaled by lra.
  rewrite sqrt_div_alt by (apply Rmult_lt_0_compat; lra).
  rewrite sqrt_square by lra. done.
Qed.


(** Row by row, [normalize] is [l2_normalized]. *)
Lemma normalize_rows x eps : normalize x eps = map (l2_normalized eps) x.
Proof.
  unfold normalize, np_divide, np_maximum, linalg_norm.
  induction x as [|row x IH]; simpl; [done|]. by rewrite IH.
Qed.






End NormalizeFacts.

(** ** Mean pooling *)

Section MeanPoolingFacts.
Import Utils Embedding.
Open Scope R_scope.







Lemma mask_floor_pos : 0 < mask_floor.
Proof. unfold mask_floor. apply Rinv_0_lt_compat. apply pow_lt. lra. Qed.

(** The floored divisor is positive, whatever the mask holds. *)
Lemma floored_divisor_pos (x : R) : 0 < Rmax x mask_floor.
Proof.
  eapply Rlt_le_trans; [apply mask_floor_pos|apply Rmax_r].
Qed.

(** *** The float operations on finite values *)

Lemma float_div_finite (a c : R) :
  c <> 0 -> float_div (Finite a) (Finite c) = Finite (a / c).
Proof. intros Hc. unfold float_div. by destruct (Req_dec_T c 0). Qed.

Lemma float_mul_inf_zero s : float_mul (Inf s) (Finite 0) = NaN.
Proof. unfold float_mul. by destruct (Req_dec_T 0 0). Qed.

Lemma float_add_finite_rows (v w : list R) :
  zip_with float_add (map Finite v) (map Finite w)
  = map Finite (zip_with Rplus v w).
Proof.
  revert w. induction v as [|x v IH]; intros [|y w]; simpl; [done..|].
  by rewrite IH.
Qed.

Lemma float_vector_sum nh (toks : list (list R)) :
  foldr (zip_with float_add) (replicate nh (Finite 0)) (map (map Finite) toks)
  = map Finite (foldr (zip_with Rplus) (replicate nh 0) toks).
Proof.
  induction toks as [|tok toks IH]; simpl.
  - by rewrite fmap_replicate.
  - by rewrite IH, float_add_finite_rows.
Qed.

Lemma float_mask_sum_row (mask_row : list Z) :
  foldr (zip_with float_add) [Finite 0]
        (map (fun m => [Finite (IZR m)]) mask_row)
  = [Finite (Rsum (map IZR mask_row))].
Proof. induction mask_row as [|m ms IH]; simpl; [done|]. by rewrite IH. Qed.

Lemma float_multiply_item (item : list (list R)) (mask_row : list Z) :
  zip_with broadcast_mul_row (map (map Finite) item)
           (map (fun m => [Finite (IZR m)]) mask_row)
  = map (map Finite)
        (zip_with (fun tok m => map (fun v => v * IZR m) tok) item mask_row).
Proof.
  revert mask_row. induction item as [|tok item IH]; intros [|m ms]; simpl;
    [done..|].
  rewrite IH. f_equal. rewrite <- !list_fmap_compose. done.
Qed.

Lemma float_divide_row (v : list R) (c : R) :
  c <> 0 ->
  map (fun x => float_div x (Finite c)) (map Finite v)
  = map Finite (map (fun x => x / c) v).
Proof.
  intros Hc. rewrite <- !list_fmap_compose. apply list_fmap_ext.
  intros _ x _. simpl. by apply float_div_finite.
Qed.

(** On token embeddings that are all finite, [mean_pooling] gives finite
    values, item by item those of [pool_item].  The division is where the
    floor of the divisor is needed: without it an all-zero mask row would
    give [0 / 0]. *)
Lemma mean_pooling_of_reals (model_output : ndarray3)
    (attention_mask : list (list Z)) :
  mean_pooling (of_reals model_output) attention_mask
  = map (map Finite)
        (zip_with (pool_item (shape3 model_output).2) (items model_output)
                  attention_mask).
Proof.
  unfold mean_pooling, np_true_divide, np_clip_min, np_sum_axis1, np_multiply,
    expand_mask, of_reals. simpl.
  generalize (shape3 model_output).2 as nh. intros nh.
  generalize (items model_output) as its. intros its.
  revert attention_mask.
  induction its as [|item its IH]; intros [|mrow mask]; simpl; [done..|].
  rewrite IH. f_equal.
  rewrite float_mask_sum_row, float_multiply_item, float_vector_sum. simpl.
  apply float_divide_row.
  apply not_eq_sym, Rlt_not_eq, floored_divisor_pos.
Qed.







Lemma scaled_by_zero (v w : list R) :
  length v = length w -> map (fun x => x * 0) v = map (fun x => x * 0) w.
Proof.
  revert w. induction v as [|x v IH]; intros [|y w] Hlen; simpl in *; try done.
  f_equal; [lra|]. apply IH. lia.
Qed.

(** Two items that agree wherever the mask is not 0 pool to the same vector. *)
Lemma pool_item_agree nh (item1 item2 : list (list R)) (mask_row : list Z) :
  Forall (fun tok => length tok = nh) item1 ->
  Forall (fun tok => length tok = nh) item2 ->
  length item1 = length item2 ->
  (forall j m, mask_row !! j = Some m -> m <> 0%Z -> item1 !! j = item2 !! j) ->
  pool_item nh item1 mask_row = pool_item nh item2 mask_row.
Proof.
  intros H1 H2 Hlen Hagree. unfold pool_item. do 2 f_equal.
  revert item2 mask_row H2 Hlen Hagree.
  induction H1 as [|tok1 item1 Htok1 _ IH]; intros [|tok2 item2] mask_row H2 Hlen
    Hagree; simpl in *; try done.
  destruct mask_row as [|m ms]; [done|]. simpl.
  apply Forall_cons in H2 as [Htok2 H2].
  f_equal.
  - destruct (decide (m = 0%Z)) as [->|Hm].
    + apply scaled_by_zero. congruence.
    + specialize (Hagree 0%nat m eq_refl Hm). simpl in Hagree. congruence.
  - apply IH; [done|lia|].
    intros j m' Hj Hm'. exact (Hagree (S j) m' Hj Hm').
Qed.

Lemma mean_pooling_agree (out1 out2 : ndarray3) (attention_mask : list (list Z))
    (nb ns nh : nat) :
  shape3 out1 = (nb, ns, nh) -> shape3 out2 = (nb, ns, nh) ->
  ndarray3_wf out1 -> ndarray3_wf out2 ->
  (forall i j item1 item2 mask_row m,
     items out1 !! i = Some item1 -> items out2 !! i = Some item2 ->
     attention_mask !! i = Some mask_row -> mask_row !! j = Some m ->
     m <> 0%Z -> item1 !! j = item2 !! j) ->
  mean_pooling (of_reals out1) attention_mask
  = mean_pooling (of_reals out2) attention_mask.
Proof.
  intros Hs1 Hs2 Hwf1 Hwf2 Hagree.
  unfold ndarray3_wf in Hwf1, Hwf2. rewrite Hs1 in Hwf1. rewrite Hs2 in Hwf2.
  destruct Hwf1 as [Hnb1 Hit1]. destruct Hwf2 as [Hnb2 Hit2].
  rewrite !mean_pooling_of_reals, Hs1, Hs2. simpl. f_equal.
  apply list_eq. intros i. rewrite !lookup_zip_with.
  destruct (items out1 !! i) as [item1|] eqn:H1; simpl.
  - destruct (lookup_lt_is_Some_2 (items out2) i) as [item2 H2].
    { rewrite Hnb2, <- Hnb1. by eapply lookup_lt_Some. }
    rewrite H2. simpl.
    destruct (attention_mask !! i) as [mask_row|] eqn:Hm; simpl; [|done].
    f_equal.
    destruct (Forall_lookup_1 _ _ _ _ Hit1 H1) as [Hl1 Ht1].
    destruct (Forall_lookup_1 _ _ _ _ Hit2 H2) as [Hl2 Ht2].
    apply pool_item_agree; [done|done|congruence|].
    intros j m Hj Hm0. by eapply Hagree.
  - apply lookup_ge_None in H1. rewrite Hnb1, <- Hnb2 in H1.
    apply lookup_ge_None in H1. by rewrite H1.
Qed.

Lemma prefix_mask_lookup ns k j m :
  prefix_mask ns k !! j = Some m -> m <> 0%Z -> (j < k)%nat.
Proof.
  unfold prefix_mask. intros Hj Hm.
  destruct (decide (j < k)%nat) as [|Hge]; [done|].
  rewrite lookup_app_r in Hj by (rewrite length_replicate; lia).
  by apply lookup_replicate in Hj as [-> _].
Qed.

(** C6. When the mask of every item is 1 at its first [k] positions and 0
    afterwards, the pooled vectors of token embeddings whose values are all
    finite depend on the first [k] hidden vectors of the item only: two
    such tensors of the same shape whose items agree on these positions,
    whatever finite values they hold at the masked-out positions, are
    pooled to the same output. *)
Theorem mean_pooling_ignores_masked (out1 out2 : ndarray3) (ks : list nat)
    (nb ns nh : nat) :
  shape3 out1 = (nb, ns, nh) -> shape3 out2 = (nb, ns, nh) ->
  ndarray3_wf out1 -> ndarray3_wf out2 ->
  length ks = nb ->
  Forall (fun k => (k <= ns)%nat) ks ->
  (forall i k item1 item2,
     ks !! i = Some k ->
     items out1 !! i = Some item1 -> items out2 !! i = Some item2 ->
     take k item1 = take k item2) ->
  mean_pooling (of_reals out1) (map (prefix_mask ns) ks)
  = mean_pooling (of_reals out2) (map (prefix_mask ns) ks).
Proof.
  intros Hs1 Hs2 Hwf1 Hwf2 Hks Hle Hagree.
  apply (mean_pooling_agree out1 out2 _ nb ns nh); try done.
  intros i j item1 item2 mask_row m H1 H2 Hrow Hj Hm.
  rewrite list_lookup_fmap in Hrow.
  destruct (ks !! i) as [k|] eqn:Hk; [|done]. injection Hrow as <-.
  pose proof (prefix_mask_lookup _ _ _ _ Hj Hm) as Hlt.
  rewrite <- (lookup_take_lt item1 k j), <- (lookup_take_lt item2 k j) by done.
  by rewrite (Hagree i k item1 item2).
Qed.

End MeanPoolingFacts.

(** ** First-token pooling in [FlagEmbedding.embed] *)

Section FirstTokenFacts.
Import Utils Embedding.
Variable onnx_embed : EmbeddingModel -> list string -> RawOutput.






End FirstTokenFacts.

(** ** The theorems at sample inputs *)

Lemma toy_output_wf : Embedding.ndarray3_wf Samples.toy_output.
Proof. split; [reflexivity|]. repeat constructor. Qed.

Lemma toy_output'_wf : Embedding.ndarray3_wf Samples.toy_output'.
Proof. split; [reflexivity|]. repeat constructor. Qed.


Lemma mean_pooling_ignores_masked_witness :
  Embedding.shape3 Samples.toy_output = (1, 2, 2) /\
  Embedding.shape3 Samples.toy_output' = (1, 2, 2) /\
  Embedding.ndarray3_wf Samples.toy_output /\
  Embedding.ndarray3_wf Samples.toy_output' /\
  length [1] = 1 /\
  Forall (fun k => k <= 2) [1] /\
  Embedding.mean_pooling (Embedding.of_reals Samples.toy_output)
    (map (prefix_mask 2) [1])
  = Embedding.mean_pooling (Embedding.of_reals Samples.toy_output')
      (map (prefix_mask 2) [1]).
Proof.
  assert (Forall (fun k => k <= 2) [1]) as Hks by (repeat constructor).
  split; [reflexivity|]. split; [reflexivity|].
  split; [exact toy_output_wf|]. split; [exact toy_output'_wf|].
  split; [reflexivity|]. split; [exact Hks|].
  apply (mean_pooling_ignores_masked Samples.toy_output Samples.toy_output'
           [1] 1 2 2 eq_refl eq_refl toy_output_wf toy_output'_wf eq_refl Hks).
  intros [|i] k item1 item2 Hk H1 H2; simpl in *; [|done].
  injection Hk as <-. injection H1 as <-. injection H2 as <-. reflexivity.
Defined.




(** ** More on the batcher *)

Section IterBatchMore.
Context {A : Type}.
Import Utils.
Implicit Types (xs ys : list A).

Lemma iter_batch_loop_zero xs : iter_batch_loop 0 xs = [].
Proof. simp iter_batch_loop. done. Qed.

Lemma iter_batch_loop_lookup size xs :
  0 < size ->
  forall i, i < length (iter_batch_loop size xs) ->
    iter_batch_loop size xs !! i = Some (take size (drop (i * size) xs)).
Proof.
  intros Hsize.
  apply (iter_batch_loop_rect size
           (fun xs bs => forall i, i < length bs ->
              bs !! i = Some (take size (drop (i * size) xs)))); [done| |].
  - intros i Hi. simpl in Hi. lia.
  - intros zs bs _ IH [|i] Hi; simpl in *.
    + done.
    + rewrite IH by lia. by rewrite drop_drop.
Qed.

Lemma iter_batch_loop_app size k xs ys :
  0 < size -> length xs = k * size ->
  iter_batch_loop size (xs ++ ys)
  = iter_batch_loop size xs ++ iter_batch_loop size ys.
Proof.
  intros Hsize. revert xs.
  induction k as [|k IH]; intros xs Hlen.
  - destruct xs; [|done]. by rewrite iter_batch_loop_nil.
  - destruct xs as [|x xs]; [simpl in Hlen; lia|].
    change ((x :: xs) ++ ys) with (x :: (xs ++ ys)).
    rewrite !iter_batch_loop_cons by done.
    change (x :: (xs ++ ys)) with ((x :: xs) ++ ys).
    assert (size <= length (x :: xs)) as Hle by (rewrite Hlen; lia).
    rewrite take_app_le, drop_app_le by done.
    rewrite IH; [done|]. rewrite length_drop, Hlen. lia.
Qed.

(** X1. For a positive [batch_size] no batch is empty and no batch has more
    than [batch_size] items. *)
Theorem iter_batch_sizes xs (B : Z) bs :
  (0 < B)%Z ->
  iter_batch xs B = Some bs ->
  Forall (fun b => (0 < Z.of_nat (length b) <= B)%Z) bs.
Proof.
  intros HB. unfold iter_batch. rewrite decide_False by lia. intros [= <-].
  apply Forall_lookup. intros i b Hb.
  destruct (iter_batch_loop_sizes (Z.to_nat B) xs ltac:(lia) i b Hb) as [? _].
  lia.
Qed.

(** X2. A [batch_size] of 0 gives no batch at all, whatever the input (the
    items are never produced, and no error is raised); a negative
    [batch_size] raises. *)
Theorem iter_batch_degenerate_size xs (B : Z) :
  (B = 0%Z -> iter_batch xs B = Some []) /\
  ((B < 0)%Z -> iter_batch xs B = None).
Proof.
  unfold iter_batch. split.
  - intros ->. simpl. by rewrite iter_batch_loop_zero.
  - intros HB. by rewrite decide_True.
Qed.

(** X3. The batch at position [i] is the slice of the input that starts at
    item [i * batch_size] and has at most [batch_size] items. *)
Theorem iter_batch_boundaries xs (B : Z) bs :
  (0 < B)%Z ->
  iter_batch xs B = Some bs ->
  forall i, i < length bs ->
    bs !! i = Some (take (Z.to_nat B) (drop (i * Z.to_nat B) xs)).
Proof.
  intros HB. unfold iter_batch. rewrite decide_False by lia. intros [= <-].
  apply iter_batch_loop_lookup. lia.
Qed.

(** X4. Batching an input whose length is a multiple of [batch_size]
    followed by another input gives the batches of the first followed by the
    batches of the second. *)
Theorem iter_batch_app xs ys (B : Z) (k : nat) :
  (0 < B)%Z ->
  Z.of_nat (length xs) = (Z.of_nat k * B)%Z ->
  iter_batch (xs ++ ys) B
  = (bs1 ← iter_batch xs B; bs2 ← iter_batch ys B; Some (bs1 ++ bs2)).
Proof.
  intros HB Hlen. unfold iter_batch. rewrite !decide_False by lia. simpl.
  f_equal. apply (iter_batch_loop_app _ k); [lia|].
  apply Nat2Z.inj. rewrite Nat2Z.inj_mul, Z2Nat.id by lia. done.
Qed.

End IterBatchMore.

Lemma iter_batch_sizes_witness :
  (0 < 3)%Z /\
  Utils.iter_batch [1; 2; 3; 4; 5]%Z 3 = Some [[1; 2; 3]; [4; 5]]%Z /\
  Forall (fun b : list Z => (0 < Z.of_nat (length b) <= 3)%Z)
         [[1; 2; 3]; [4; 5]]%Z.
Proof.
  split; [lia|]. split; [reflexivity|].
  apply (iter_batch_sizes [1; 2; 3; 4; 5]%Z 3); [lia|reflexivity].
Defined.

Lemma iter_batch_boundaries_witness :
  (0 < 3)%Z /\
  Utils.iter_batch [1; 2; 3; 4; 5]%Z 3 = Some [[1; 2; 3]; [4; 5]]%Z /\
  [[1; 2; 3]; [4; 5]]%Z !! 1
  = Some (take (Z.to_nat 3) (drop (1 * Z.to_nat 3) [1; 2; 3; 4; 5]%Z)).
Proof.
  split; [lia|]. split; [reflexivity|].
  apply (iter_batch_boundaries [1; 2; 3; 4; 5]%Z 3 [[1; 2; 3]; [4; 5]]%Z
           ltac:(lia) eq_refl 1).
  simpl. lia.
Defined.

Lemma iter_batch_app_witness :
  (0 < 2)%Z /\
  Z.of_nat (length [1; 2; 3; 4]%Z) = (Z.of_nat 2 * 2)%Z /\
  Utils.iter_batch ([1; 2; 3; 4] ++ [5])%Z 2
  = (bs1 ← Utils.iter_batch [1; 2; 3; 4]%Z 2;
     bs2 ← Utils.iter_batch [5]%Z 2; Some (bs1 ++ bs2)).
Proof.
  split; [lia|]. split; [reflexivity|].
  apply (iter_batch_app [1; 2; 3; 4]%Z [5]%Z 2 2); [lia|reflexivity].
Defined.

(** ** More on L2 normalization *)

Section NormalizeMore.
Import Utils.
Open Scope R_scope.

Lemma Rsum_squares_times (v : list R) c :
  Rsum (map (fun x => x * x) (map (fun x => c * x) v))
  = c * c * Rsum (map (fun x => x * x) v).
Proof.
  induction v as [|x v IH]; simpl; [lra|]. rewrite IH. lra.
Qed.

Lemma l2_norm_times v c : 0 <= c -> l2_norm (map (fun x => c * x) v) = c * l2_norm v.
Proof.
  intros Hc. unfold l2_norm. rewrite Rsum_squares_times.
  rewrite sqrt_mult_alt by (apply Rmult_le_pos; lra).
  by rewrite sqrt_square.
Qed.

Lemma Rsum_squares_padded (v : list R) k :
  Rsum (map (fun x => x * x) (v ++ replicate k 0))
  = Rsum (map (fun x => x * x) v).
Proof.
  induction v as [|x v IH]; simpl; [|by rewrite IH].
  induction k as [|k IH]; simpl; [done|]. rewrite IH. lra.
Qed.

Lemma l2_norm_padded v k : l2_norm (v ++ replicate k 0) = l2_norm v.
Proof. unfold l2_norm. by rewrite Rsum_squares_padded. Qed.

Lemma map_div_zeros k c : map (fun x => x / c) (replicate k 0) = replicate k 0.
Proof.
  induction k as [|k IH]; simpl; [done|]. rewrite IH. f_equal.
  unfold Rdiv. apply Rmult_0_l.
Qed.

(** X5. A row whose norm does not reach the floor [eps] is divided by [eps]
    itself: it comes out with norm [norm / eps], at most 1, and a row of
    zeros comes out as the same row of zeros. *)
Theorem normalize_below_floor (x : list (list R)) (eps : R) i row :
  0 < eps ->
  x !! i = Some row ->
  l2_norm row <= eps ->
  exists out,
    normalize x eps !! i = Some out /\
    out = map (fun v => v / eps) row /\
    l2_norm out = l2_norm row / eps /\
    l2_norm out <= 1 /\
    (Forall (fun v => v = 0) row -> out = row).
Proof.
  intros Heps Hrow Hsmall. exists (map (fun v => v / eps) row).
  rewrite normalize_rows, list_lookup_fmap, Hrow. simpl.
  unfold l2_normalized. rewrite Rmax_right by done.
  split; [done|]. split; [done|].
  rewrite l2_norm_scaled by done.
  split; [done|]. split.
  - apply (Rmult_le_reg_r eps); [done|].
    unfold Rdiv. rewrite Rmult_assoc, Rinv_l by lra. lra.
  - intros Hzero. clear Hrow Hsmall.
    induction Hzero as [|v row -> _ IH]; simpl; [done|].
    rewrite IH. f_equal. unfold Rdiv. apply Rmult_0_l.
Qed.

(** X6. Scaling a row by a positive factor does not change its normalized
    form, as long as the norm stays at or above the floor before and after
    the scaling. *)
Theorem normalize_scale_invariant (x : list (list R)) (eps c : R) :
  0 < eps -> 0 < c ->
  Forall (fun row => eps <= l2_norm row /\ eps <= c * l2_norm row) x ->
  normalize (map (map (fun v => c * v)) x) eps = normalize x eps.
Proof.
  intros Heps Hc Hall. rewrite !normalize_rows, map_map.
  induction Hall as [|row x [H1 H2] _ IH]; simpl; [done|].
  rewrite IH. f_equal. unfold l2_normalized.
  rewrite l2_norm_times by lra. rewrite !Rmax_left by done.
  rewrite map_map. apply map_ext. intros v. field. lra.
Qed.

(** X7. [normalize] works row by row: every row keeps its number of
    components, and the result for two arrays put one after the other is the
    two results put one after the other. *)
Theorem normalize_row_by_row (x y : list (list R)) (eps : R) :
  normalize (x ++ y) eps = normalize x eps ++ normalize y eps /\
  forall i row, x !! i = Some row ->
    exists out, normalize x eps !! i = Some out /\
                length out = length row.
Proof.
  rewrite !normalize_rows. split; [apply map_app|].
  intros i row Hrow. exists (l2_normalized eps row).
  rewrite list_lookup_fmap, Hrow. split; [done|].
  unfold l2_normalized. apply length_map.
Qed.

(** X8. Zero padding and normalization commute: normalizing vectors that
    were padded with zeros at the end gives the normalized vectors padded
    with zeros at the end. *)
Theorem normalize_zero_padding (lead : list nat) (D : nat) (x : list (list R))
    (eps : R) (embedding_size : Z) :
  (Z.of_nat D <= embedding_size)%Z ->
  normalize (vectors (adjust_matryoshka_embedding 0
                        (mk_ndarray lead D x) embedding_size)) eps
  = vectors (adjust_matryoshka_embedding 0
               (mk_ndarray lead D (normalize x eps)) embedding_size).
Proof.
  intros Hsize. unfold adjust_matryoshka_embedding.
  cbn [last_dim].
  destruct (decide (embedding_size < Z.of_nat D)%Z) as [?|_]; [lia|].
  destruct (decide (embedding_size > Z.of_nat D)%Z) as [Hgt|Heq];
    [|reflexivity].
  cbn [vectors np_pad_last last_dim].
  rewrite !normalize_rows, !map_map. apply map_ext. intros v.
  change (replicate 0 0 ++ v ++ ?z) with (v ++ z).
  change (replicate 0 0 ++ l2_normalized eps v ++ ?z)
    with (l2_normalized eps v ++ z).
  unfold l2_normalized. rewrite l2_norm_padded, map_app.
  by rewrite map_div_zeros.
Qed.

End NormalizeMore.

Lemma normalize_below_floor_witness :
  (0 < 1)%R /\ [[0; 0]]%R !! 0 = Some [0; 0]%R /\
  (l2_norm [0; 0] <= 1)%R /\
  exists out, Utils.normalize [[0; 0]]%R 1 !! 0 = Some out /\ out = [0; 0]%R.
Proof.
  assert (l2_norm [0; 0] <= 1)%R as Hn.
  { unfold l2_norm. simpl.
    replace (0 * 0 + (0 * 0 + 0))%R with 0%R by lra. rewrite sqrt_0. lra. }
  split; [lra|]. split; [reflexivity|]. split; [exact Hn|].
  destruct (normalize_below_floor [[0; 0]]%R 1 0 [0; 0]%R ltac:(lra) eq_refl Hn)
    as (out & Hout & _ & _ & _ & Hzero).
  exists out. split; [exact Hout|]. apply Hzero. repeat constructor.
Defined.

Lemma normalize_scale_invariant_witness :
  (0 < 1)%R /\ (0 < 2)%R /\
  Forall (fun row => (1 <= l2_norm row /\ 1 <= 2 * l2_norm row)%R) [[3; 4]]%R /\
  Utils.normalize (map (map (fun v => 2 * v)%R) [[3; 4]]%R) 1
  = Utils.normalize [[3; 4]]%R 1.
Proof.
  assert (l2_norm [3; 4] = 5)%R as Hn.
  { unfold l2_norm. simpl.
    replace (3 * 3 + (4 * 4 + 0))%R with (5 * 5)%R by lra.
    apply sqrt_square. lra. }
  assert (Forall (fun row => (1 <= l2_norm row /\ 1 <= 2 * l2_norm row)%R)
                 [[3; 4]]%R) as Hall.
  { constructor; [|constructor]. rewrite Hn. lra. }
  split; [lra|]. split; [lra|]. split; [exact Hall|].
  apply (normalize_scale_invariant [[3; 4]]%R 1 2); [lra|lra|exact Hall].
Defined.

Lemma normalize_zero_padding_witness :
  (Z.of_nat 2 <= 4)%Z /\
  Utils.normalize
    (Utils.vectors (Utils.adjust_matryoshka_embedding 0%R
                      (Utils.mk_ndarray [1] 2 [[3; 4]]%R) 4)) 1
  = Utils.vectors (Utils.adjust_matryoshka_embedding 0%R
                     (Utils.mk_ndarray [1] 2 (Utils.normalize [[3; 4]]%R 1)) 4).
Proof.
  split; [lia|].
  apply (normalize_zero_padding [1] 2 [[3; 4]]%R 1 4). lia.
Defined.

(** ** More on the Matryoshka adjustment *)

Section MatryoshkaMore.
Import Utils.
Context {A : Type} (zero : A).
Implicit Types (embeddings : ndarray A) (embedding_size : Z).

Lemma take_all_vectors (vs : list (list A)) D :
  Forall (fun v => length v = D) vs -> map (take D) vs = vs.
Proof.
  induction 1 as [|v vs Hv _ IH]; simpl; [done|].
  rewrite IH. f_equal. apply take_ge. lia.
Qed.

(** X9. Padding up to a larger size and then asking for the native size
    again gives back the array. *)
Theorem adjust_matryoshka_pad_then_truncate embeddings embedding_size :
  ndarray_wf embeddings ->
  (Z.of_nat (last_dim embeddings) <= embedding_size)%Z ->
  adjust_matryoshka_embedding zero
    (adjust_matryoshka_embedding zero embeddings embedding_size)
    (Z.of_nat (last_dim embeddings))
  = embeddings.
Proof.
  intros [_ Hall] Hsize. destruct embeddings as [lead D vs]. simpl in *.
  unfold adjust_matryoshka_embedding at 2. cbn [last_dim].
  destruct (decide (embedding_size < Z.of_nat D)%Z) as [?|_]; [lia|].
  destruct (decide (embedding_size > Z.of_nat D)%Z) as [Hgt|Heq].
  - unfold adjust_matryoshka_embedding, np_pad_last. cbn [last_dim vectors lead_shape].
    rewrite decide_True by lia.
    unfold slice_last. cbn [last_dim vectors lead_shape].
    rewrite slice_stop_nonneg by lia. rewrite Nat2Z.id. f_equal.
    rewrite map_map. rewrite <- (take_all_vectors vs D Hall) at 2.
    apply Forall_fmap_ext_1. eapply Forall_impl; [exact Hall|].
    intros v Hv. simpl in *. rewrite take_app_le by lia. done.
  - unfold adjust_matryoshka_embedding. cbn [last_dim].
    rewrite !decide_False by lia. done.
Qed.

(** X10. Truncating in two steps is truncating once: for sizes
    [0 <= m <= n] not above the native size, adjusting to [n] and then to [m]
    is adjusting to [m]. *)
Theorem adjust_matryoshka_truncate_twice embeddings (n m : Z) :
  (0 <= m <= n)%Z -> (n <= Z.of_nat (last_dim embeddings))%Z ->
  adjust_matryoshka_embedding zero
    (adjust_matryoshka_embedding zero embeddings n) m
  = adjust_matryoshka_embedding zero embeddings m.
Proof.
  intros Hm Hn. destruct embeddings as [lead D vs]. simpl in *.
  unfold adjust_matryoshka_embedding at 2. cbn [last_dim].
  destruct (decide (n < Z.of_nat D)%Z) as [Hlt|Hge].
  - unfold adjust_matryoshka_embedding, slice_last.
    cbn [last_dim vectors lead_shape].
    rewrite (slice_stop_nonneg D n) by lia. rewrite Z2Nat.id by lia.
    rewrite (decide_True (P:=(m < Z.of_nat D)%Z)) by lia.
    destruct (decide (m < n)%Z) as [Hmn|Hmn].
    + rewrite !slice_stop_nonneg by lia. f_equal.
      rewrite map_map. apply map_ext. intros v. simpl.
      rewrite take_take. f_equal. lia.
    + assert (m = n) as -> by lia.
      rewrite decide_False by lia.
      rewrite slice_stop_nonneg by lia. done.
  - rewrite decide_False by lia. done.
Qed.

(** X11. A negative size raises no error: it is read by the slice as
    counting from the end, so the last [-embedding_size] components of every
    vector are dropped (all of them when there are fewer). *)
Theorem adjust_matryoshka_negative_size embeddings embedding_size :
  ndarray_wf embeddings ->
  (embedding_size < 0)%Z ->
  let r := adjust_matryoshka_embedding zero embeddings embedding_size in
  let k := Z.to_nat (Z.of_nat (last_dim embeddings) + embedding_size) in
  ndarray_wf r /\
  last_dim r = k /\
  vectors r = map (take k) (vectors embeddings).
Proof.
  intros Hwf Hneg r k. subst r. unfold adjust_matryoshka_embedding.
  rewrite decide_True by lia.
  split; [by apply slice_last_wf|].
  unfold slice_last, slice_stop. rewrite decide_True by done. simpl.
  replace (Z.to_nat (Z.max (Z.of_nat (last_dim embeddings) + embedding_size) 0))
    with k by (subst k; lia).
  done.
Qed.

End MatryoshkaMore.

Lemma adjust_matryoshka_pad_then_truncate_witness :
  Utils.ndarray_wf (Utils.mk_ndarray [2] 3 [[1; 2; 3]; [4; 5; 6]]%Z) /\
  (Z.of_nat 3 <= 5)%Z /\
  Utils.adjust_matryoshka_embedding 0%Z
    (Utils.adjust_matryoshka_embedding 0%Z
       (Utils.mk_ndarray [2] 3 [[1; 2; 3]; [4; 5; 6]]%Z) 5) (Z.of_nat 3)
  = Utils.mk_ndarray [2] 3 [[1; 2; 3]; [4; 5; 6]]%Z.
Proof.
  assert (Utils.ndarray_wf (Utils.mk_ndarray [2] 3 [[1; 2; 3]; [4; 5; 6]]%Z))
    as Hwf by (split; [reflexivity|repeat constructor]).
  split; [exact Hwf|]. split; [lia|].
  apply (adjust_matryoshka_pad_then_truncate 0%Z
           (Utils.mk_ndarray [2] 3 [[1; 2; 3]; [4; 5; 6]]%Z) 5 Hwf).
  simpl. lia.
Defined.

Lemma adjust_matryoshka_truncate_twice_witness :
  (0 <= 1 <= 2)%Z /\ (2 <= Z.of_nat 3)%Z /\
  Utils.adjust_matryoshka_embedding 0%Z
    (Utils.adjust_matryoshka_embedding 0%Z
       (Utils.mk_ndarray [2] 3 [[1; 2; 3]; [4; 5; 6]]%Z) 2) 1
  = Utils.adjust_matryoshka_embedding 0%Z
      (Utils.mk_ndarray [2] 3 [[1; 2; 3]; [4; 5; 6]]%Z) 1.
Proof.
  split; [lia|]. split; [lia|].
  apply (adjust_matryoshka_truncate_twice 0%Z
           (Utils.mk_ndarray [2] 3 [[1; 2; 3]; [4; 5; 6]]%Z) 2 1);
    simpl; lia.
Defined.

Lemma adjust_matryoshka_negative_size_witness :
  Utils.ndarray_wf (Utils.mk_ndarray [2] 3 [[1; 2; 3]; [4; 5; 6]]%Z) /\
  (-1 < 0)%Z /\
  Utils.vectors
    (Utils.adjust_matryoshka_embedding 0%Z
       (Utils.mk_ndarray [2] 3 [[1; 2; 3]; [4; 5; 6]]%Z) (-1))
  = [[1; 2]; [4; 5]]%Z.
Proof.
  assert (Utils.ndarray_wf (Utils.mk_ndarray [2] 3 [[1; 2; 3]; [4; 5; 6]]%Z))
    as Hwf by (split; [reflexivity|repeat constructor]).
  split; [exact Hwf|]. split; [lia|].
  destruct (adjust_matryoshka_negative_size 0%Z
              (Utils.mk_ndarray [2] 3 [[1; 2; 3]; [4; 5; 6]]%Z) (-1) Hwf)
    as (_ & _ & Hv); [lia|].
  rewrite Hv. reflexivity.
Defined.

(** ** More on mean pooling *)

Section MeanPoolingMore.
Import Utils Embedding.
Open Scope R_scope.

Lemma zeros_add nh : zip_with Rplus (replicate nh 0) (replicate nh 0) = replicate nh 0.
Proof. induction nh as [|nh IH]; simpl; [done|]. rewrite IH. f_equal. lra. Qed.

Lemma vector_sum_zeros nh (toks : list (list R)) :
  Forall (fun tok => tok = replicate nh 0) toks ->
  foldr (zip_with Rplus) (replicate nh 0) toks = replicate nh 0.
Proof.
  induction 1 as [|tok toks -> _ IH]; simpl; [done|].
  rewrite IH. apply zeros_add.
Qed.

Lemma scaled_by_zero_is_zeros (tok : list R) :
  map (fun v => v * 0) tok = replicate (length tok) 0.
Proof.
  induction tok as [|x tok IH]; simpl; [done|]. rewrite IH. f_equal. lra.
Qed.

Lemma weighted_tokens_zero_mask nh (item : list (list R)) (mask_row : list Z) :
  Forall (fun tok => length tok = nh) item ->
  Forall (fun m => m = 0%Z) mask_row ->
  Forall (fun tok => tok = replicate nh 0)
         (zip_with (fun tok m => map (fun v => v * IZR m) tok) item mask_row).
Proof.
  intros Hitem. revert mask_row.
  induction Hitem as [|tok item Htok _ IH]; intros [|m ms] Hmask; simpl;
    try constructor.
  - apply Forall_cons in Hmask as [-> _].
    by rewrite scaled_by_zero_is_zeros, Htok.
  - apply IH. by apply Forall_cons in Hmask as [_ ?].
Qed.

Lemma pool_item_zero_mask nh item mask_row :
  Forall (fun tok => length tok = nh) item ->
  Forall (fun m => m = 0%Z) mask_row ->
  pool_item nh item mask_row = replicate nh 0.
Proof.
  intros Hitem Hmask. unfold pool_item.
  rewrite vector_sum_zeros by by apply weighted_tokens_zero_mask.
  apply map_div_zeros.
Qed.

Lemma mask_sum_padded (mask_row : list Z) p :
  Rsum (map IZR (mask_row ++ replicate p 0%Z)) = Rsum (map IZR mask_row).
Proof.
  induction mask_row as [|m ms IH]; simpl; [|by rewrite IH].
  induction p as [|p IH]; simpl; [done|]. rewrite IH. lra.
Qed.

Lemma pool_item_padded nh item extra mask_row p :
  length item = length mask_row ->
  Forall (fun tok => length tok = nh) extra ->
  pool_item nh (item ++ extra) (mask_row ++ replicate p 0%Z)
  = pool_item nh item mask_row.
Proof.
  intros Hlen Hextra. unfold pool_item.
  rewrite mask_sum_padded. f_equal.
  rewrite zip_with_app by done. rewrite foldr_app. f_equal.
  apply vector_sum_zeros, weighted_tokens_zero_mask; [done|].
  apply Forall_replicate. done.
Qed.

(** X12. An item of finite hidden values whose mask is all zeros is pooled
    to the zero vector: the divisor is the floor [1e-9], not the mask sum 0,
    and the result is [0 / 1e-9], not the NaN of [0 / 0]. *)
Theorem mean_pooling_zero_mask (model_output : ndarray3)
    (attention_mask : list (list Z)) (nb ns nh : nat) i item mask_row :
  shape3 model_output = (nb, ns, nh) ->
  ndarray3_wf model_output ->
  items model_output !! i = Some item ->
  attention_mask !! i = Some mask_row ->
  Forall (fun m => m = 0%Z) mask_row ->
  mean_pooling (of_reals model_output) attention_mask !! i
  = Some (replicate nh (Finite 0)).
Proof.
  intros Hshape Hwf Hitem Hrow Hzero.
  unfold ndarray3_wf in Hwf. rewrite Hshape in Hwf. destruct Hwf as [_ Hitems].
  rewrite mean_pooling_of_reals, Hshape, list_lookup_fmap, lookup_zip_with,
    Hitem, Hrow. simpl.
  rewrite pool_item_zero_mask, fmap_replicate; [done| |done].
  by destruct (Forall_lookup_1 _ _ _ _ Hitems Hitem).
Qed.

(** X13. Padding with finite values does not change the result: when every
    item of finite hidden values gets [p] more token vectors at the end,
    whatever finite values they hold, and every mask row gets [p] more
    zeros, the pooled vectors are the same. *)
Theorem mean_pooling_padding_invariant (out1 out2 : ndarray3)
    (mask1 : list (list Z)) (nb ns p nh : nat) :
  shape3 out1 = (nb, ns, nh) ->
  shape3 out2 = (nb, ns + p, nh)%nat ->
  ndarray3_wf out1 -> ndarray3_wf out2 ->
  Forall (fun mask_row => length mask_row = ns) mask1 ->
  (forall i item1 item2,
     items out1 !! i = Some item1 -> items out2 !! i = Some item2 ->
     take ns item2 = item1) ->
  mean_pooling (of_reals out2)
    (map (fun mask_row => mask_row ++ replicate p 0%Z) mask1)
  = mean_pooling (of_reals out1) mask1.
Proof.
  intros Hs1 Hs2 Hwf1 Hwf2 Hrows Hsame.
  unfold ndarray3_wf in Hwf1, Hwf2. rewrite Hs1 in Hwf1. rewrite Hs2 in Hwf2.
  destruct Hwf1 as [Hnb1 Hit1]. destruct Hwf2 as [Hnb2 Hit2].
  rewrite !mean_pooling_of_reals, Hs1, Hs2. simpl. f_equal.
  apply list_eq. intros i. rewrite !lookup_zip_with, list_lookup_fmap.
  destruct (items out2 !! i) as [item2|] eqn:H2; simpl.
  - destruct (lookup_lt_is_Some_2 (items out1) i) as [item1 H1].
    { rewrite Hnb1, <- Hnb2. by eapply lookup_lt_Some. }
    rewrite H1. simpl.
    destruct (mask1 !! i) as [mask_row|] eqn:Hm; simpl; [|done].
    f_equal.
    destruct (Forall_lookup_1 _ _ _ _ Hit1 H1) as [Hl1 Ht1].
    destruct (Forall_lookup_1 _ _ _ _ Hit2 H2) as [Hl2 Ht2].
    pose proof (Forall_lookup_1 _ _ _ _ Hrows Hm) as Hlm. simpl in Hlm.
    rewrite <- (take_drop ns item2), (Hsame i item1 item2 H1 H2).
    apply pool_item_padded; [lia|]. by apply Forall_drop.
  - apply lookup_ge_None in H2. rewrite Hnb2, <- Hnb1 in H2.
    apply lookup_ge_None in H2. by rewrite H2.
Qed.

Lemma mask_floor_le_1 : mask_floor <= 1.
Proof.
  unfold mask_floor. rewrite <- Rinv_1.
  apply Rinv_le_contravar; [lra|]. apply pow_R1_Rle. lra.
Qed.




End MeanPoolingMore.

Lemma mean_pooling_zero_mask_witness :
  Embedding.shape3 Samples.toy_output = (1, 2, 2) /\
  Embedding.ndarray3_wf Samples.toy_output /\
  Embedding.items Samples.toy_output !! 0 = Some [[3; 4]; [5; 12]]%R /\
  [[0; 0]]%Z !! 0 = Some [0; 0]%Z /\
  Forall (fun m => m = 0%Z) [0; 0]%Z /\
  Embedding.mean_pooling (Embedding.of_reals Samples.toy_output)
    [[0; 0]]%Z !! 0
  = Some (replicate 2 (Embedding.Finite 0%R)).
Proof.
  assert (Forall (fun m => m = 0%Z) [0; 0]%Z) as Hz by (repeat constructor).
  split; [reflexivity|]. split; [exact toy_output_wf|].
  split; [reflexivity|]. split; [reflexivity|]. split; [exact Hz|].
  exact (mean_pooling_zero_mask Samples.toy_output [[0; 0]]%Z 1 2 2 0
           [[3; 4]; [5; 12]]%R [0; 0]%Z eq_refl toy_output_wf eq_refl eq_refl Hz).
Defined.

Lemma mean_pooling_padding_invariant_witness :
  Embedding.shape3 (Embedding.mk_ndarray3 (1, 1, 2) [[[3; 4]]]%R) = (1, 1, 2) /\
  Embedding.shape3 Samples.toy_output = (1, 1 + 1, 2) /\
  Embedding.ndarray3_wf (Embedding.mk_ndarray3 (1, 1, 2) [[[3; 4]]]%R) /\
  Embedding.ndarray3_wf Samples.toy_output /\
  Forall (fun mask_row : list Z => length mask_row = 1) [[1]]%Z /\
  Embedding.mean_pooling (Embedding.of_reals Samples.toy_output)
    (map (fun mask_row => mask_row ++ replicate 1 0%Z) [[1]]%Z)
  = Embedding.mean_pooling
      (Embedding.of_reals (Embedding.mk_ndarray3 (1, 1, 2) [[[3; 4]]]%R))
      [[1]]%Z.
Proof.
  assert (Embedding.ndarray3_wf (Embedding.mk_ndarray3 (1, 1, 2) [[[3; 4]]]%R))
    as Hwf by (split; [reflexivity|repeat constructor]).
  assert (Forall (fun mask_row : list Z => length mask_row = 1) [[1]]%Z)
    as Hrows by (repeat constructor).
  split; [reflexivity|]. split; [reflexivity|]. split; [exact Hwf|].
  split; [exact toy_output_wf|]. split; [exact Hrows|].
  apply (mean_pooling_padding_invariant
           (Embedding.mk_ndarray3 (1, 1, 2) [[[3; 4]]]%R) Samples.toy_output
           [[1]]%Z 1 1 1 2 eq_refl eq_refl Hwf toy_output_wf Hrows).
  intros [|i] item1 item2 H1 H2; simpl in *; [|done].
  injection H1 as <-. injection H2 as <-. reflexivity.
Defined.


(** ** Mean pooling of values that are not finite *)

Section MeanPoolingSpecialValues.
Import Utils Embedding.
Open Scope R_scope.

(** What [mean_pooling] makes of finite token embeddings holds finite values
    only. *)
Lemma mean_pooling_finite_values (model_output : ndarray3)
    (attention_mask : list (list Z)) :
  map (map Finite)
      (map (map float_real)
           (mean_pooling (of_reals model_output) attention_mask))
  = mean_pooling (of_reals model_output) attention_mask.
Proof.
  rewrite mean_pooling_of_reals.
  rewrite <- !list_fmap_compose. apply list_fmap_ext. intros _ row _. simpl.
  rewrite <- !list_fmap_compose. by apply list_fmap_ext.
Qed.

Lemma float_mul_special_zero (x : float64) :
  is_finite x = false -> float_mul x (Finite 0) = NaN.
Proof.
  destruct x as [r|s|]; [done| |done]. intros _. apply float_mul_inf_zero.
Qed.

Lemma float_add_nan_r (x : float64) : float_add x NaN = NaN.
Proof. by destruct x. Qed.

Lemma float_vector_sum_length nh (toks : list (list float64)) :
  Forall (fun tok => length tok = nh) toks ->
  length (foldr (zip_with float_add) (replicate nh (Finite 0)) toks) = nh.
Proof.
  induction 1 as [|tok toks Htok _ IH]; simpl.
  - apply length_replicate.
  - rewrite length_zip_with, IH, Htok. apply Nat.min_id.
Qed.

(** NaN in one of the vectors added up is NaN in the sum. *)
Lemma float_vector_sum_nan nh (toks : list (list float64)) j tok d :
  Forall (fun tok => length tok = nh) toks ->
  toks !! j = Some tok -> tok !! d = Some NaN ->
  foldr (zip_with float_add) (replicate nh (Finite 0)) toks !! d = Some NaN.
Proof.
  intros Hall. revert j.
  induction Hall as [|t toks Ht Hall IH]; intros [|j] Hj Hd; simpl in *;
    try done.
  - injection Hj as ->. rewrite lookup_zip_with, Hd. simpl.
    destruct (lookup_lt_is_Some_2
                (foldr (zip_with float_add) (replicate nh (Finite 0)) toks) d)
      as [y ->]; [|done].
    rewrite float_vector_sum_length by done.
    rewrite <- Ht. by eapply lookup_lt_Some.
  - rewrite lookup_zip_with, (IH j Hj Hd).
    destruct (t !! d) as [y|] eqn:Hy; simpl.
    + by rewrite float_add_nan_r.
    + apply lookup_ge_None in Hy. apply lookup_lt_Some in Hd.
      pose proof (Forall_lookup_1 _ _ _ _ Hall Hj) as Hl. simpl in Hl. lia.
Qed.

Lemma float_weighted_tokens (item : list (list float64)) (mask_row : list Z) :
  zip_with broadcast_mul_row item (map (fun m => [Finite (IZR m)]) mask_row)
  = zip_with (fun tok m => map (fun v => float_mul v (Finite (IZR m))) tok)
             item mask_row.
Proof.
  revert mask_row. induction item as [|tok item IH]; intros [|m ms]; simpl;
    [done..|]. by rewrite IH.
Qed.

Lemma float_weighted_tokens_length nh (item : list (list float64))
    (mask_row : list Z) :
  Forall (fun tok => length tok = nh) item ->
  Forall (fun tok => length tok = nh)
         (zip_with (fun tok m => map (fun v => float_mul v (Finite (IZR m))) tok)
                   item mask_row).
Proof.
  intros Hitem. revert mask_row.
  induction Hitem as [|tok item Htok _ IH]; intros [|m ms]; simpl;
    try constructor; [by rewrite length_map|apply IH].
Qed.

(** One item of [mean_pooling], whatever values the tensor holds. *)
Lemma mean_pooling_lookup (model_output : float_array3)
    (attention_mask : list (list Z)) i item mask_row :
  float_items model_output !! i = Some item ->
  attention_mask !! i = Some mask_row ->
  mean_pooling model_output attention_mask !! i
  = Some (map (fun x => float_div x
                 (Finite (Rmax (Rsum (map IZR mask_row)) mask_floor)))
            (foldr (zip_with float_add)
               (replicate (float_shape3 model_output).2 (Finite 0))
               (zip_with
                  (fun tok m => map (fun v => float_mul v (Finite (IZR m))) tok)
                  item mask_row))).
Proof.
  intros Hitem Hrow.
  unfold mean_pooling, np_true_divide, np_clip_min, np_sum_axis1, np_multiply,
    expand_mask.
  rewrite lookup_zip_with, !list_lookup_fmap, lookup_zip_with,
    list_lookup_fmap, Hitem, Hrow. simpl.
  by rewrite float_mask_sum_row, float_weighted_tokens.
Qed.

(** X30. An infinity or NaN at a position whose mask value is 0 is not
    masked out: times 0 it is NaN, and the pooled component it belongs to is
    NaN, whatever the other positions hold. *)
Theorem mean_pooling_masked_special_nan (model_output : float_array3)
    (attention_mask : list (list Z)) (nb ns nh : nat) i item mask_row
    j tok d x :
  float_shape3 model_output = (nb, ns, nh) ->
  float_array3_wf model_output ->
  float_items model_output !! i = Some item ->
  attention_mask !! i = Some mask_row ->
  item !! j = Some tok ->
  mask_row !! j = Some 0%Z ->
  tok !! d = Some x ->
  is_finite x = false ->
  exists pooled,
    mean_pooling model_output attention_mask !! i = Some pooled /\
    length pooled = nh /\
    pooled !! d = Some NaN.
Proof.
  intros Hshape Hwf Hitem Hrow Htok Hm Hx Hfin.
  unfold float_array3_wf in Hwf. rewrite Hshape in Hwf.
  destruct Hwf as [_ Hitems].
  destruct (Forall_lookup_1 _ _ _ _ Hitems Hitem) as [_ Htoks].
  eexists. split; [by apply mean_pooling_lookup|].
  rewrite Hshape. simpl.
  split.
  - rewrite length_map. by apply float_vector_sum_length,
      float_weighted_tokens_length.
  - rewrite list_lookup_fmap.
    rewrite (float_vector_sum_nan nh _ j
               (map (fun v => float_mul v (Finite 0)) tok) d).
    + done.
    + by apply float_weighted_tokens_length.
    + by rewrite lookup_zip_with, Htok, Hm.
    + rewrite list_lookup_fmap, Hx. simpl.
      by rewrite float_mul_special_zero.
Qed.

(** The item [[3, 4], [x, 12]] with mask [1, 0], where the masked-out value
    [x] times 0 is NaN: the first pooled component is NaN, the second is
    4. *)
Lemma mean_pooling_masked_special (x : float64) :
  float_mul x (Finite 0) = NaN ->
  mean_pooling
    (mk_float_array3 (1, 2, 2)%nat [[[Finite 3; Finite 4]; [x; Finite 12]]])
    [[1; 0]]%Z
  = [[NaN; Finite 4]].
Proof.
  intros Hx.
  unfold mean_pooling, np_true_divide, np_clip_min, np_sum_axis1, np_multiply,
    expand_mask.
  cbn [float_items float_shape3 snd map zip_with foldr replicate
       broadcast_mul_row broadcast_true_div_row].
  rewrite Hx.
  cbn [float_mul float_add float_max float_div].
  assert (Rmax (1 + (0 + 0)) mask_floor = 1) as ->.
  { rewrite Rmax_left; [lra|]. pose proof mask_floor_le_1. lra. }
  destruct (Req_dec_T 1 0) as [H10|_]; [lra|].
  replace ((4 * 1 + (12 * 0 + 0)) / 1) with 4 by lra. reflexivity.
Qed.

End MeanPoolingSpecialValues.

Lemma inf_output_wf : Embedding.float_array3_wf Samples.inf_output.
Proof. split; [reflexivity|]. repeat constructor. Qed.

Lemma mean_pooling_masked_special_nan_witness :
  Embedding.float_shape3 Samples.inf_output = (1, 2, 2) /\
  Embedding.float_array3_wf Samples.inf_output /\
  Embedding.is_finite (Embedding.Inf false) = false /\
  exists pooled,
    Embedding.mean_pooling Samples.inf_output [[1; 0]]%Z !! 0 = Some pooled /\
    length pooled = 2 /\
    pooled !! 0 = Some Embedding.NaN.
Proof.
  split; [reflexivity|]. split; [exact inf_output_wf|]. split; [reflexivity|].
  exact (mean_pooling_masked_special_nan Samples.inf_output [[1; 0]]%Z 1 2 2 0
           [[Embedding.Finite 3; Embedding.Finite 4];
            [Embedding.Inf false; Embedding.Finite 12]]%R
           [1; 0]%Z 1
           [Embedding.Inf false; Embedding.Finite 12%R] 0 (Embedding.Inf false)
           eq_refl inf_output_wf eq_refl eq_refl eq_refl eq_refl eq_refl
           eq_refl).
Defined.


(** C6 as the specification words it, for any two tensors: the tensors
    [[3, 4], [5, 12]] and [[3, 4], [NaN, 12]] agree on the one position
    where the mask [1, 0] is 1 and differ at the masked-out position, and
    are pooled to different outputs, [3, 4] and [NaN, 4]. *)
Lemma mean_pooling_masked_nan_differs :
  Embedding.float_shape3 (Embedding.of_reals Samples.toy_output)
  = Embedding.float_shape3 Samples.nan_output /\
  map (take 1) (Embedding.float_items (Embedding.of_reals Samples.toy_output))
  = map (take 1) (Embedding.float_items Samples.nan_output) /\
  Embedding.mean_pooling (Embedding.of_reals Samples.toy_output)
    (map (prefix_mask 2) [1])
  <> Embedding.mean_pooling Samples.nan_output (map (prefix_mask 2) [1]).
Proof.
  split; [reflexivity|]. split; [reflexivity|].
  change (map (prefix_mask 2) [1]) with [[1; 0]]%Z.
  unfold Samples.nan_output.
  rewrite (mean_pooling_masked_special Embedding.NaN eq_refl).
  rewrite mean_pooling_of_reals. simpl. discriminate.
Qed.

(** ** [embed] on particular arguments, [query_embed], [passage_embed] *)

Section MethodsFacts.
Import Embedding EmbeddingMethods.
Variable onnx_embed : EmbeddingModel -> list string -> RawOutput.
Variable post : RawOutput -> PyError + list (list R).

Lemma iter_batch_single_item (x : string) (B : Z) :
  (0 < B)%Z -> iter_batch [x] B = Some [[x]].
Proof.
  intros HB. unfold iter_batch, Utils.iter_batch. rewrite decide_False by lia.
  f_equal. rewrite iter_batch_loop_cons by lia.
  destruct (Z.to_nat B) as [|n] eqn:Hn; [lia|]. simpl.
  rewrite take_nil, drop_nil. by rewrite iter_batch_loop_nil.
Qed.

(** X15. A bare string is embedded in the calling process whatever
    [parallel] and [batch_size] are, and gives what the one-element list of
    that string gives in the single-process branch. *)
Theorem embed_bare_string cpu_count capacity self (s : string) batch_size
    parallel tr :
  embed_trace onnx_embed post cpu_count capacity self (DocStr s) batch_size
              parallel tr ->
  embed_execution cpu_count (DocStr s) batch_size parallel = SingleProcess /\
  tr = embed_single_process onnx_embed post self (DocList [s]) batch_size.
Proof.
  intros Htr.
  assert (embed_execution cpu_count (DocStr s) batch_size parallel
          = SingleProcess) as He by by apply embed_execution_small.
  split; [exact He|].
  by rewrite (embed_trace_single onnx_embed post _ _ _ _ _ _ _ He Htr).
Qed.

(** X16. When [os.cpu_count()] gives [None], [parallel = 0] runs in the
    calling process, whatever the input: every trace is the one of the
    single-process branch. *)
Theorem embed_parallel_zero_unknown_cpus capacity self docs batch_size tr :
  embed_trace onnx_embed post None capacity self docs batch_size (Some 0%Z) tr ->
  embed_execution None docs batch_size (Some 0%Z) = SingleProcess /\
  tr = embed_single_process onnx_embed post self docs batch_size.
Proof.
  intros Htr.
  assert (embed_execution None docs batch_size (Some 0%Z) = SingleProcess)
    as He.
  { unfold embed_execution, embed_prelude.
    destruct docs; simpl; by repeat case_decide. }
  split; [exact He|]. by eapply embed_trace_single.
Qed.

(** X17. [query_embed] runs one inference, in the calling process, on the
    one-element batch that holds the query behind the prefix ["query: "],
    and yields the post-processed result of that batch. *)
Theorem query_embed_one_batch cpu_count capacity self (query : string) tr :
  EmbeddingMethods.query_embed onnx_embed post cpu_count capacity self query tr ->
  tr = match post (onnx_embed (model self) [("query: " ++ query)%string]) with
       | inl e => ([], Some e)
       | inr ys => (ys, None)
       end.
Proof.
  unfold EmbeddingMethods.query_embed. intros Htr.
  rewrite (embed_trace_single onnx_embed post _ _ _ _ _ _ _
             (embed_execution_none _ _ _) Htr).
  unfold embed_single_process. simpl doc_items.
  rewrite iter_batch_single_item by lia. simpl.
  destruct (post _); [done|]. by rewrite app_nil_r.
Qed.

(** X18. [passage_embed] hands [embed] a generator, which is never counted:
    with [parallel = N > 0] the worker pool with [N] workers is used however
    few texts there are, and what it embeds are the texts, in order, each
    behind the prefix ["passage: "]. *)
Theorem passage_embed_pool cpu_count capacity self (texts : list string)
    batch_size (N : Z) tr :
  (0 < N)%Z ->
  passage_embed onnx_embed post cpu_count capacity self texts batch_size
                (Some N) tr ->
  embed_execution cpu_count (passage_documents texts) batch_size (Some N)
  = ParallelPool N /\
  exists batches outs,
    iter_batch (map (fun t => ("passage: " ++ t)%string) texts) batch_size
    = Some batches /\
    ParallelProcessor.ordered_map
      (process onnx_embed
         (worker_start (_model_dir self) (self_model_name self) (_max_length self)))
      (Z.to_nat N) capacity batches outs /\
    tr = yield_from_each post outs.
Proof.
  intros HN Htr.
  assert (embed_execution cpu_count (passage_documents texts) batch_size (Some N)
          = ParallelPool N) as He.
  { rewrite embed_execution_not_small by (simpl; tauto).
    rewrite decide_False; [done|]. intros [= ->]. lia. }
  split; [exact He|].
  exact (embed_trace_pool onnx_embed post _ _ _ _ _ _ _ _ He Htr).
Qed.

End MethodsFacts.

(** ** [SparseTextEmbedding] over the life of an object *)

Section SparseObjectFacts.
Import SparseObject.





End SparseObjectFacts.

Lemma embed_bare_string_witness :
  Embedding.embed_trace Samples.toy_onnx_embed Embedding.flag_post (Some 8%Z) 4
    Samples.toy_self (Embedding.DocStr "hello") 1 (Some 2%Z)
    (Embedding.yield_from_each
       (fun batch => Embedding.flag_post
          (Samples.toy_onnx_embed (Embedding.model Samples.toy_self) batch))
       [["hello"]]) /\
  Embedding.embed_execution (Some 8%Z) (Embedding.DocStr "hello") 1 (Some 2%Z)
  = Embedding.SingleProcess.
Proof.
  assert (Embedding.embed_trace Samples.toy_onnx_embed Embedding.flag_post
            (Some 8%Z) 4 Samples.toy_self (Embedding.DocStr "hello") 1 (Some 2%Z)
            (Embedding.yield_from_each
               (fun batch => Embedding.flag_post
                  (Samples.toy_onnx_embed (Embedding.model Samples.toy_self) batch))
               [["hello"]])) as Htr.
  { apply Embedding.embed_single; reflexivity. }
  split; [exact Htr|].
  exact (proj1 (embed_bare_string _ _ _ _ _ _ _ _ _ Htr)).
Defined.

Lemma embed_parallel_zero_unknown_cpus_witness :
  Embedding.embed_trace Samples.toy_onnx_embed Embedding.flag_post None 4
    Samples.toy_self (Embedding.DocList ["hello"; "world"]) 1 (Some 0%Z)
    (Embedding.yield_from_each
       (fun batch => Embedding.flag_post
          (Samples.toy_onnx_embed (Embedding.model Samples.toy_self) batch))
       [["hello"]; ["world"]]) /\
  Embedding.embed_execution None (Embedding.DocList ["hello"; "world"]) 1
    (Some 0%Z) = Embedding.SingleProcess.
Proof.
  assert (Embedding.embed_trace Samples.toy_onnx_embed Embedding.flag_post None 4
            Samples.toy_self (Embedding.DocList ["hello"; "world"]) 1 (Some 0%Z)
            (Embedding.yield_from_each
               (fun batch => Embedding.flag_post
                  (Samples.toy_onnx_embed (Embedding.model Samples.toy_self) batch))
               [["hello"]; ["world"]])) as Htr.
  { apply Embedding.embed_single; reflexivity. }
  split; [exact Htr|].
  exact (proj1 (embed_parallel_zero_unknown_cpus _ _ _ _ _ _ _ Htr)).
Defined.

Lemma query_embed_one_batch_witness :
  EmbeddingMethods.query_embed Samples.toy_onnx_embed Embedding.flag_post
    (Some 8%Z) 4 Samples.toy_self "hello"
    (Embedding.yield_from_each
       (fun batch => Embedding.flag_post
          (Samples.toy_onnx_embed (Embedding.model Samples.toy_self) batch))
       [["query: hello"]]) /\
  Embedding.yield_from_each
    (fun batch => Embedding.flag_post
       (Samples.toy_onnx_embed (Embedding.model Samples.toy_self) batch))
    [["query: hello"]]
  = match Embedding.flag_post
            (Samples.toy_onnx_embed (Embedding.model Samples.toy_self)
               [("query: " ++ "hello")%string]) with
    | inl e => ([], Some e)
    | inr ys => (ys, None)
    end.
Proof.
  assert (EmbeddingMethods.query_embed Samples.toy_onnx_embed Embedding.flag_post
            (Some 8%Z) 4 Samples.toy_self "hello"
            (Embedding.yield_from_each
               (fun batch => Embedding.flag_post
                  (Samples.toy_onnx_embed (Embedding.model Samples.toy_self) batch))
               [["query: hello"]])) as Htr.
  { unfold EmbeddingMethods.query_embed.
    apply Embedding.embed_single; reflexivity. }
  split; [exact Htr|].
  exact (query_embed_one_batch _ _ _ _ _ _ _ Htr).
Defined.

Lemma passage_embed_pool_witness :
  (0 < 2)%Z /\
  exists tr,
    EmbeddingMethods.passage_embed Samples.toy_onnx_embed Embedding.flag_post
      (Some 8%Z) 4 Samples.toy_self ["hello"] 256 (Some 2%Z) tr /\
    Embedding.embed_execution (Some 8%Z)
      (EmbeddingMethods.passage_documents ["hello"]) 256 (Some 2%Z)
    = Embedding.ParallelPool 2.
Proof.
  split; [lia|].
  destruct (ordered_map_sequential
              (Embedding.process Samples.toy_onnx_embed
                 (Embedding.worker_start
                    (Embedding._model_dir Samples.toy_self)
                    (Embedding.self_model_name Samples.toy_self)
                    (Embedding._max_length Samples.toy_self)))
              (Samples.toy_onnx_embed
                 (Embedding.worker_start
                    (Embedding._model_dir Samples.toy_self)
                    (Embedding.self_model_name Samples.toy_self)
                    (Embedding._max_length Samples.toy_self)))
              4 (process_one_task _ _) ltac:(lia) 2 [["passage: hello"]])
    as [[outs Houts] _]; [lia|].
  assert (EmbeddingMethods.passage_embed Samples.toy_onnx_embed
            Embedding.flag_post (Some 8%Z) 4 Samples.toy_self ["hello"] 256
            (Some 2%Z) (Embedding.yield_from_each Embedding.flag_post outs))
    as Htr.
  { unfold EmbeddingMethods.passage_embed.
    eapply (Embedding.embed_pool _ _ _ _ _ _ _ _ 2 [["passage: hello"]] outs);
      [reflexivity|reflexivity|exact Houts]. }
  exists (Embedding.yield_from_each Embedding.flag_post outs).
  split; [exact Htr|].
  assert (0 < 2)%Z as HN by lia.
  exact (proj1 (passage_embed_pool _ _ _ _ _ _ _ 2%Z _ HN Htr)).
Defined.

(** ** The lists of supported models *)

Section SupportedModelsFacts.
Import EmbeddingMethods.
Implicit Types (models : list model_dict) (exclude : list string).

(** The key functions of the two subclasses, in one form. *)
Local Abbreviation keep_by f :=
  (fun model : model_dict =>
     match model_startswith "jinaai" model with
     | inl e => inl e
     | inr b => inr (f b)
     end).

Lemma select_models_ext (keep1 keep2 : model_dict -> PyExc + bool) models :
  (forall model, keep1 model = keep2 model) ->
  select_models keep1 models = select_models keep2 models.
Proof.
  intros Hext. induction models as [|model models IH]; simpl; [done|].
  by rewrite Hext, IH.
Qed.

Lemma jina_keep_by models exclude :
  JinaEmbedding_list_supported_models models exclude
  = select_models (keep_by (fun b : bool => b)) (list_supported_models models exclude).
Proof.
  unfold JinaEmbedding_list_supported_models. apply select_models_ext.
  intros model. by destruct (model_startswith "jinaai" model).
Qed.

Lemma select_models_inv (keep : model_dict -> PyExc + bool) models kept :
  select_models keep models = inr kept ->
  Forall (fun model => exists b, keep model = inr b) models /\
  forall model, model ∈ kept <-> model ∈ models /\ keep model = inr true.
Proof.
  revert kept. induction models as [|m models IH]; intros kept; simpl.
  - intros [= <-]. split; [constructor|].
    intros model. split; [by intros ?%elem_of_nil|by intros [?%elem_of_nil _]].
  - destruct (keep m) as [e|b] eqn:Hm; [done|].
    destruct (select_models keep models) as [e|rest]; [done|].
    intros [= <-]. destruct (IH rest eq_refl) as [Hall Hin].
    split; [constructor; eauto|].
    intros model. destruct b.
    + rewrite !elem_of_cons, Hin. split.
      * intros [->|[? ?]]; eauto.
      * intros [[->|?] ?]; eauto.
    + rewrite elem_of_cons, Hin. split.
      * intros [? ?]; eauto.
      * intros [[->|?] ?]; [congruence|eauto].
Qed.

Lemma select_models_total (keep : model_dict -> PyExc + bool) models :
  Forall (fun model => exists b, keep model = inr b) models ->
  exists kept, select_models keep models = inr kept.
Proof.
  induction 1 as [|m models [b Hb] _ [kept IH]]; simpl; [eauto|].
  rewrite Hb, IH. eauto.
Qed.

Lemma select_models_split (keep : model_dict -> PyExc + bool) models yes no :
  select_models keep models = inr yes ->
  select_models (fun model => match keep model with
                              | inl e => inl e
                              | inr b => inr (negb b)
                              end) models = inr no ->
  length yes + length no = length models.
Proof.
  revert yes no. induction models as [|m models IH]; intros yes no; simpl.
  - by intros [= <-] [= <-].
  - destruct (keep m) as [e|b]; [done|].
    destruct (select_models keep models) as [e|yes']; [done|].
    destruct (select_models _ models) as [e|no']; [done|].
    intros [= <-] [= <-]. specialize (IH yes' no' eq_refl eq_refl).
    destruct b; simpl; lia.
Qed.

Lemma shown_lookup (model : model_dict) exclude k :
  filter (fun kv : string * json => kv.1 ∉ exclude) model !! k
  = if decide (k ∈ exclude) then None else model !! k.
Proof.
  case_decide as Hk.
  - apply map_lookup_filter_None. right. intros x _ Hnot. by apply Hnot.
  - destruct (model !! k) as [x|] eqn:Hx.
    + by apply map_lookup_filter_Some.
    + apply map_lookup_filter_None. by left.
Qed.

(** X21. [Embedding.list_supported_models] keeps the models and their
    order; in every model the excluded keys are gone and every other key
    keeps its value. *)
Theorem list_supported_models_exclude models exclude :
  length (list_supported_models models exclude) = length models /\
  forall i model, models !! i = Some model ->
    exists shown,
      list_supported_models models exclude !! i = Some shown /\
      forall k, shown !! k = if decide (k ∈ exclude) then None else model !! k.
Proof.
  unfold list_supported_models. split; [apply length_map|].
  intros i model Hi. eexists. split.
  - by rewrite list_lookup_fmap, Hi.
  - intros k. apply shown_lookup.
Qed.

Lemma model_startswith_shown exclude (model : model_dict) :
  "model" ∉ exclude ->
  model_startswith "jinaai"
    (filter (fun kv : string * json => kv.1 ∉ exclude) model)
  = model_startswith "jinaai" model.
Proof.
  intros Hk. unfold model_startswith.
  by rewrite shown_lookup, decide_False.
Qed.

(** X22. When every model carries a string under ["model"] and that key is
    not excluded, the lists of [FlagEmbedding] and [JinaEmbedding] split the
    list of [Embedding] in two: every model is in exactly one of them, those
    of [JinaEmbedding] have a name that starts with ["jinaai"], those of
    [FlagEmbedding] do not. *)
Theorem flag_jina_partition models exclude :
  "model" ∉ exclude ->
  Forall (fun model => exists s, model !! "model" = Some (JString s)) models ->
  exists flag jina,
    FlagEmbedding_list_supported_models models exclude = inr flag /\
    JinaEmbedding_list_supported_models models exclude = inr jina /\
    length flag + length jina = length models /\
    (forall model, model ∈ list_supported_models models exclude
                   <-> model ∈ flag \/ model ∈ jina) /\
    (forall model, model ∈ flag -> model ∉ jina) /\
    (forall model, model ∈ jina ->
       exists s, model !! "model" = Some (JString s) /\
                 String.prefix "jinaai" s = true) /\
    (forall model, model ∈ flag ->
       exists s, model !! "model" = Some (JString s) /\
                 String.prefix "jinaai" s = false).
Proof.
  intros Hk Hall.
  assert (Forall (fun model => exists s, model !! "model" = Some (JString s))
                 (list_supported_models models exclude)) as Hshown.
  { unfold list_supported_models. apply Forall_map.
    eapply Forall_impl; [exact Hall|]. intros model [s Hs]. exists s. simpl.
    by rewrite shown_lookup, decide_False. }
  assert (forall model, model ∈ list_supported_models models exclude ->
            exists s, model !! "model" = Some (JString s) /\
                      model_startswith "jinaai" model
                      = inr (String.prefix "jinaai" s)) as Hname.
  { intros model Hin. rewrite Forall_forall in Hshown.
    destruct (Hshown model Hin) as [s Hs]. exists s. split; [done|].
    unfold model_startswith. by rewrite Hs. }
  destruct (select_models_total (keep_by (fun b : bool => b))
              (list_supported_models models exclude)) as [jina Hjina].
  { apply Forall_forall. intros model Hin.
    destruct (Hname model Hin) as (s & _ & ->). eauto. }
  destruct (select_models_total (keep_by negb)
              (list_supported_models models exclude)) as [flag Hflag].
  { apply Forall_forall. intros model Hin.
    destruct (Hname model Hin) as (s & _ & ->). eauto. }
  exists flag, jina.
  destruct (select_models_inv _ _ _ Hjina) as [_ Hj].
  destruct (select_models_inv _ _ _ Hflag) as [_ Hf].
  split; [exact Hflag|]. split; [by rewrite jina_keep_by|].
  split.
  { rewrite Nat.add_comm.
    rewrite <- (length_map (fun model =>
                  filter (fun kv : string * json => kv.1 ∉ exclude) model)
                  models).
    apply (select_models_split (keep_by (fun b : bool => b)) _ jina flag Hjina).
    rewrite <- Hflag. apply select_models_ext. intros model.
    by destruct (model_startswith "jinaai" model). }
  split.
  { intros model. rewrite Hf, Hj. split.
    - intros Hin. destruct (Hname model Hin) as (s & _ & ->).
      destruct (String.prefix "jinaai" s); simpl; eauto.
    - intros [[? _]|[? _]]; done. }
  split.
  { intros model [Hin H1]%Hf [_ H2]%Hj.
    destruct (Hname model Hin) as (s & _ & Hs). rewrite Hs in H1, H2.
    destruct (String.prefix "jinaai" s); simpl in *; congruence. }
  split.
  - intros model [Hin H1]%Hj. destruct (Hname model Hin) as (s & Hm & Hs).
    exists s. split; [done|]. rewrite Hs in H1. simpl in H1. congruence.
  - intros model [Hin H1]%Hf. destruct (Hname model Hin) as (s & Hm & Hs).
    exists s. split; [done|]. rewrite Hs in H1. simpl in H1.
    destruct (String.prefix "jinaai" s); simpl in *; congruence.
Qed.

(** X23. Excluding the key ["model"] itself makes both subclass lists fail
    with [KeyError] as soon as there is a model: the name test reads the key
    after the exclusion. *)
Theorem subclass_lists_key_error models exclude :
  "model" ∈ exclude ->
  models <> [] ->
  FlagEmbedding_list_supported_models models exclude = inl KeyError /\
  JinaEmbedding_list_supported_models models exclude = inl KeyError.
Proof.
  intros Hk Hne. destruct models as [|model models]; [done|].
  unfold FlagEmbedding_list_supported_models,
    JinaEmbedding_list_supported_models, list_supported_models.
  simpl. unfold model_startswith.
  by rewrite shown_lookup, decide_True.
Qed.

Lemma model_names_inv models names :
  model_names models = inr names ->
  forall v, v ∈ names <-> exists model, model ∈ models /\ model !! "model" = Some v.
Proof.
  revert names. induction models as [|m models IH]; intros names; simpl.
  - intros [= <-] v. split; [by intros ?%elem_of_nil|].
    by intros (model & ?%elem_of_nil & _).
  - destruct (m !! "model") as [v0|] eqn:Hm; [|done].
    destruct (model_names models) as [e|rest]; [done|].
    intros [= <-] v. rewrite elem_of_cons, (IH rest eq_refl). split.
    + intros [->|(model & Hin & Hv)].
      * exists m. split; [by left|done].
      * exists model. split; [by right|done].
    + intros (model & [->|Hin]%elem_of_cons & Hv).
      * left. congruence.
      * right. eauto.
Qed.

Lemma model_names_total models :
  Forall (fun model => is_Some (model !! "model")) models ->
  exists names, model_names models = inr names.
Proof.
  induction 1 as [|m models [v Hv] _ [names IH]]; simpl; [eauto|].
  rewrite Hv, IH. eauto.
Qed.

Lemma existsb_is_name model_name names :
  existsb (is_name model_name) names = true <-> JString model_name ∈ names.
Proof.
  rewrite existsb_exists. split.
  - intros (v & Hin & Hv). destruct v as [s| |]; simpl in Hv; try done.
    apply String.eqb_eq in Hv as ->. by apply list_elem_of_In.
  - intros Hin. exists (JString model_name). split; [by apply list_elem_of_In|].
    simpl. apply String.eqb_refl.
Qed.

Lemma keep_by_name (f : bool -> bool) (model : model_dict) (b : bool) :
  keep_by f model = inr b ->
  exists s, model !! "model" = Some (JString s) /\
            b = f (String.prefix "jinaai" s).
Proof.
  unfold model_startswith.
  destruct (model !! "model") as [[s|l|t]|]; try done.
  intros [= <-]. eauto.
Qed.

(** A class whose list keeps the models with [f (name starts with jinaai)]
    accepts a name only if the name passes that test. *)
Lemma assert_model_name_accepted (f : bool -> bool) models model_name :
  assert_model_name (select_models (keep_by f) models) model_name = inr tt ->
  contains_slash model_name = true /\
  Forall (fun model => exists b, keep_by f model = inr b) models /\
  f (String.prefix "jinaai" model_name) = true.
Proof.
  unfold assert_model_name.
  destruct (contains_slash model_name); simpl; [|done].
  destruct (select_models (keep_by f) models) as [e|kept] eqn:Hsel; [done|].
  destruct (model_names kept) as [e|names] eqn:Hnames; [done|].
  destruct (existsb (is_name model_name) names) eqn:Hex; [|done]. intros _.
  destruct (select_models_inv _ _ _ Hsel) as [Hall Hkept].
  split; [done|]. split; [done|].
  apply existsb_is_name in Hex.
  apply (model_names_inv _ _ Hnames) in Hex as (model & Hin & Hm).
  apply Hkept in Hin as [_ Hkeep].
  apply keep_by_name in Hkeep as (s & Hs & Hb). congruence.
Qed.

(** ... and rejects with [ValueError] every name with a slash that fails
    the test, provided its list can be built. *)
Lemma assert_model_name_rejected (f : bool -> bool) models model_name :
  contains_slash model_name = true ->
  Forall (fun model => exists b, keep_by f model = inr b) models ->
  f (String.prefix "jinaai" model_name) = false ->
  assert_model_name (select_models (keep_by f) models) model_name
  = inl ValueErrorExc.
Proof.
  intros Hslash Hall Hf. unfold assert_model_name. rewrite Hslash. simpl.
  destruct (select_models_total _ _ Hall) as [kept Hsel]. rewrite Hsel.
  destruct (select_models_inv _ _ _ Hsel) as [_ Hkept].
  destruct (model_names_total kept) as [names Hnames].
  { apply Forall_forall. intros model [_ Hkeep]%Hkept.
    apply keep_by_name in Hkeep as (s & -> & _). eauto. }
  rewrite Hnames.
  destruct (existsb (is_name model_name) names) eqn:Hex; [|done].
  apply existsb_is_name in Hex.
  apply (model_names_inv _ _ Hnames) in Hex as (model & Hin & Hm).
  apply Hkept in Hin as [_ Hkeep].
  apply keep_by_name in Hkeep as (s & Hs & Hb). congruence.
Qed.

Lemma keep_by_switch (f g : bool -> bool) models :
  Forall (fun model => exists b, keep_by f model = inr b) models ->
  Forall (fun model => exists b, keep_by g model = inr b) models.
Proof.
  intros Hall. eapply Forall_impl; [exact Hall|].
  intros model [b Hb]. simpl in *.
  destruct (model_startswith "jinaai" model); [done|eauto].
Qed.

(** X24. No model name passes [assert_model_name] of both [FlagEmbedding]
    and [JinaEmbedding]: a name that [FlagEmbedding] accepts does not start
    with ["jinaai"] and is refused by [JinaEmbedding] with [ValueError], and
    a name that [JinaEmbedding] accepts starts with ["jinaai"] and is
    refused by [FlagEmbedding] with [ValueError]. *)
Theorem assert_model_name_exclusive models model_name :
  (assert_model_name
     (FlagEmbedding_list_supported_models models default_exclude) model_name
   = inr tt ->
   String.prefix "jinaai" model_name = false /\
   assert_model_name
     (JinaEmbedding_list_supported_models models default_exclude) model_name
   = inl ValueErrorExc) /\
  (assert_model_name
     (JinaEmbedding_list_supported_models models default_exclude) model_name
   = inr tt ->
   String.prefix "jinaai" model_name = true /\
   assert_model_name
     (FlagEmbedding_list_supported_models models default_exclude) model_name
   = inl ValueErrorExc).
Proof.
  rewrite jina_keep_by. unfold FlagEmbedding_list_supported_models. split.
  - intros (Hslash & Hall & Hf)%assert_model_name_accepted.
    apply negb_true_iff in Hf. split; [done|].
    apply assert_model_name_rejected; [done| |done].
    exact (keep_by_switch negb (fun b => b) _ Hall).
  - intros (Hslash & Hall & Hf)%assert_model_name_accepted.
    split; [done|].
    apply (assert_model_name_rejected negb); [done| |by rewrite Hf].
    exact (keep_by_switch (fun b => b) negb _ Hall).
Qed.

End SupportedModelsFacts.

Lemma model_key_not_excluded : "model" ∉ EmbeddingMethods.default_exclude.
Proof.
  unfold EmbeddingMethods.default_exclude.
  intros [?|[?|?%elem_of_nil]%elem_of_cons]%elem_of_cons; done.
Qed.

Lemma sample_models_named :
  Forall (fun model : EmbeddingMethods.model_dict =>
            exists s, model !! "model" = Some (EmbeddingMethods.JString s))
         ModelSamples.models.
Proof.
  constructor; [|constructor; [|constructor]]; eexists;
    apply lookup_insert_eq.
Qed.

Lemma flag_jina_partition_witness :
  ("model" ∉ EmbeddingMethods.default_exclude) /\
  Forall (fun model : EmbeddingMethods.model_dict =>
            exists s, model !! "model" = Some (EmbeddingMethods.JString s))
         ModelSamples.models /\
  exists flag jina,
    EmbeddingMethods.FlagEmbedding_list_supported_models ModelSamples.models
      EmbeddingMethods.default_exclude = inr flag /\
    EmbeddingMethods.JinaEmbedding_list_supported_models ModelSamples.models
      EmbeddingMethods.default_exclude = inr jina /\
    length flag + length jina = length ModelSamples.models.
Proof.
  split; [exact model_key_not_excluded|]. split; [exact sample_models_named|].
  destruct (flag_jina_partition ModelSamples.models
              EmbeddingMethods.default_exclude model_key_not_excluded
              sample_models_named) as (flag & jina & Hf & Hj & Hlen & _).
  exists flag, jina. split; [exact Hf|]. split; [exact Hj|exact Hlen].
Defined.

Lemma subclass_lists_key_error_witness :
  ("model" ∈ ["model"]) /\ ModelSamples.models <> [] /\
  EmbeddingMethods.FlagEmbedding_list_supported_models ModelSamples.models
    ["model"] = inl EmbeddingMethods.KeyError /\
  EmbeddingMethods.JinaEmbedding_list_supported_models ModelSamples.models
    ["model"] = inl EmbeddingMethods.KeyError.
Proof.
  assert ("model" ∈ ["model"]) as Hk by (by left).
  assert (ModelSamples.models <> []) as Hne by done.
  split; [exact Hk|]. split; [exact Hne|].
  exact (subclass_lists_key_error ModelSamples.models ["model"] Hk Hne).
Defined.

Lemma assert_model_name_exclusive_witness :
  EmbeddingMethods.assert_model_name
    (EmbeddingMethods.FlagEmbedding_list_supported_models ModelSamples.models
       EmbeddingMethods.default_exclude) "BAAI/bge-base-en" = inr tt /\
  EmbeddingMethods.assert_model_name
    (EmbeddingMethods.JinaEmbedding_list_supported_models ModelSamples.models
       EmbeddingMethods.default_exclude) "BAAI/bge-base-en"
  = inl EmbeddingMethods.ValueErrorExc.
Proof.
  assert (EmbeddingMethods.assert_model_name
            (EmbeddingMethods.FlagEmbedding_list_supported_models
               ModelSamples.models EmbeddingMethods.default_exclude)
            "BAAI/bge-base-en" = inr tt) as Hacc by (vm_compute; reflexivity).
  split; [exact Hacc|].
  exact (proj2 (proj1 (assert_model_name_exclusive ModelSamples.models
                         "BAAI/bge-base-en") Hacc)).
Defined.

(** ** The download loop *)

Section DownloadFacts.
Import EmbeddingMethods.
Variable snapshot_download : nat -> string -> attempt.

Lemma download_loop_ends target index (sources : list string) :
  sources <> [] -> last sources = target ->
  download_loop snapshot_download target index sources <> ReturnedNone.
Proof.
  revert index. induction sources as [|repo rest IH]; [done|].
  intros index _ Hlast. simpl.
  destruct (snapshot_download index repo); [done| |done].
  case_decide as Hrepo; [done|].
  destruct rest as [|repo2 rest]; [by subst target|].
  apply IH; [done|]. by rewrite last_cons_cons in Hlast.
Qed.

Lemma download_loop_first target (sources : list string) index i repo path :
  sources !! i = Some repo ->
  snapshot_download (index + i) repo = Downloaded path ->
  (forall j r, j < i -> sources !! j = Some r ->
     (exists e, snapshot_download (index + j) r = NotFound e) /\
     Some r <> target) ->
  download_loop snapshot_download target index sources = Returned path.
Proof.
  revert sources index. induction i as [|i IH]; intros [|r0 rest] index Hi Hok
    Hbefore; simpl in *; try done.
  - injection Hi as ->. rewrite Nat.add_0_r in Hok. by rewrite Hok.
  - destruct (Hbefore 0 r0 ltac:(lia) eq_refl) as [[e He] Hne].
    rewrite Nat.add_0_r in He. rewrite He, decide_False by done.
    apply IH; [done|by replace (S index + i) with (index + S i) by lia|].
    intros j r Hj Hr.
    replace (S index + j) with (index + S j) by lia.
    apply (Hbefore (S j) r); [lia|done].
Qed.

Lemma download_loop_stops target (sources : list string) index i repo e :
  sources !! i = Some repo ->
  Some repo = target ->
  snapshot_download (index + i) repo = NotFound e ->
  (forall j r, j < i -> sources !! j = Some r ->
     (exists e', snapshot_download (index + j) r = NotFound e') /\
     Some r <> target) ->
  download_loop snapshot_download target index sources = RaisedCaught e.
Proof.
  revert sources index. induction i as [|i IH]; intros [|r0 rest] index Hi Hlast
    Hfail Hbefore; simpl in *; try done.
  - injection Hi as ->. rewrite Nat.add_0_r in Hfail.
    by rewrite Hfail, decide_True.
  - destruct (Hbefore 0 r0 ltac:(lia) eq_refl) as [[e' He] Hne].
    rewrite Nat.add_0_r in He. rewrite He, decide_False by done.
    apply IH; [done|done|by replace (S index + i) with (index + S i) by lia|].
    intros j r Hj Hr.
    replace (S index + j) with (index + S j) by lia.
    apply (Hbefore (S j) r); [lia|done].
Qed.

Lemma download_from_sources_loop (hf_sources : list string) i repo :
  hf_sources !! i = Some repo ->
  download_from_sources snapshot_download hf_sources
  = download_loop snapshot_download (last hf_sources) 0 hf_sources.
Proof. by destruct hf_sources. Qed.

(** X25. The function never returns [None]: with no source it raises
    [ValueError], and otherwise the loop ends by returning a path or by
    raising. *)
Theorem download_never_none (hf_sources : list string) :
  download_from_sources snapshot_download hf_sources <> ReturnedNone /\
  (hf_sources = [] ->
   download_from_sources snapshot_download hf_sources = RaisedNoSource).
Proof.
  split; [|by intros ->].
  destruct hf_sources as [|repo rest]; [done|].
  unfold download_from_sources. by apply download_loop_ends.
Qed.

(** X26. With sources that are all different, the path of the first source
    that downloads is returned, when every source before it fails with an
    exception that the loop catches. *)
Theorem download_first_working (hf_sources : list string) i repo path :
  NoDup hf_sources ->
  hf_sources !! i = Some repo ->
  snapshot_download i repo = Downloaded path ->
  (forall j r, j < i -> hf_sources !! j = Some r ->
     exists e, snapshot_download j r = NotFound e) ->
  download_from_sources snapshot_download hf_sources = Returned path.
Proof.
  intros Hnodup Hi Hok Hbefore.
  rewrite (download_from_sources_loop _ _ _ Hi).
  apply (download_loop_first _ _ 0 i repo); [done|done|].
  intros j r Hj Hr. split; [by apply (Hbefore j r)|].
  rewrite last_lookup. intros Hlast. symmetry in Hlast.
  pose proof (NoDup_lookup _ _ _ _ Hnodup Hr Hlast) as Heq.
  pose proof (lookup_lt_Some _ _ _ Hi). lia.
Qed.

(** X27. A source that fails with a caught exception and whose id is that
    of the last source ends the search with that exception, wherever it
    stands in the list: sources after it are not tried.  (Every source
    before it has failed with a caught exception and another id.) *)
Theorem download_stops_at_last_id (hf_sources : list string) i repo e :
  hf_sources !! i = Some repo ->
  last hf_sources = Some repo ->
  snapshot_download i repo = NotFound e ->
  (forall j r, j < i -> hf_sources !! j = Some r ->
     (exists e', snapshot_download j r = NotFound e') /\ r <> repo) ->
  download_from_sources snapshot_download hf_sources = RaisedCaught e.
Proof.
  intros Hi Hlast Hfail Hbefore.
  rewrite (download_from_sources_loop _ _ _ Hi).
  apply (download_loop_stops _ _ 0 i repo); [done|done|done|].
  intros j r Hj Hr. destruct (Hbefore j r Hj Hr) as [? Hne].
  split; [done|]. rewrite Hlast. congruence.
Qed.

End DownloadFacts.

(** ** The directory name of [retrieve_model_gcs] *)

Section FastModelNameFacts.
Import EmbeddingMethods.

Lemma split_slash_nonempty s : split_slash s <> [].
Proof.
  destruct s as [|c s]; simpl; [done|].
  destruct (Ascii.eqb c slash); [done|]. by destruct (split_slash s).
Qed.

Lemma join_split_slash s : join_slash (split_slash s) = s.
Proof.
  induction s as [|c s IH]; simpl; [done|].
  destruct (Ascii.eqb_spec c slash) as [->|Hc].
  - pose proof (split_slash_nonempty s).
    cbn [join_slash]. destruct (split_slash s) as [|seg segs]; [done|].
    rewrite IH. done.
  - pose proof (split_slash_nonempty s).
    destruct (split_slash s) as [|seg segs]; [done|].
    destruct segs as [|seg2 segs]; simpl in *; by rewrite <- IH.
Qed.

Lemma contains_slash_cons c s :
  contains_slash (String c s) = Ascii.eqb slash c || contains_slash s.
Proof. done. Qed.

Lemma split_slash_segments s :
  Forall (fun seg => contains_slash seg = false) (split_slash s).
Proof.
  induction s as [|c s IH]; simpl; [by repeat constructor|].
  destruct (Ascii.eqb c slash) eqn:Hc; [by constructor|].
  pose proof (split_slash_nonempty s).
  destruct (split_slash s) as [|seg segs]; [done|].
  apply Forall_cons in IH as [Hseg Hsegs]. constructor; [|done].
  rewrite contains_slash_cons, Hseg, Ascii.eqb_sym, Hc. done.
Qed.

Lemma split_slash_plain s :
  contains_slash s = false -> split_slash s = [s].
Proof.
  induction s as [|c s IH]; simpl; [done|].
  rewrite contains_slash_cons. intros [Hc Hs]%orb_false_iff.
  rewrite Ascii.eqb_sym, Hc, IH by done. done.
Qed.

Lemma contains_slash_fast seg :
  contains_slash ("fast-" ++ seg)%string = contains_slash seg.
Proof. reflexivity. Qed.

(** X28. Splitting a model name at its slashes and joining the parts with
    slashes gives the name back; the name of the directory,
    ["fast-"] followed by the last part, contains no slash; and for a name
    without a slash it is ["fast-"] followed by the whole name. *)
Theorem fast_model_name_no_slash (model_name : string) :
  join_slash (split_slash model_name) = model_name /\
  contains_slash (fast_model_name model_name) = false /\
  (contains_slash model_name = false ->
   fast_model_name model_name = ("fast-" ++ model_name)%string).
Proof.
  split; [apply join_split_slash|]. split.
  - unfold fast_model_name. rewrite contains_slash_fast.
    pose proof (split_slash_segments model_name) as Hall.
    destruct (last (split_slash model_name)) as [seg|] eqn:Hlast; [|done].
    rewrite last_lookup in Hlast.
    exact (Forall_lookup_1 _ _ _ _ Hall Hlast).
  - intros Hplain. unfold fast_model_name.
    by rewrite split_slash_plain.
Qed.

End FastModelNameFacts.

Example fast_model_name_bge :
  EmbeddingMethods.fast_model_name "BAAI/bge-base-en" = "fast-bge-base-en".
Proof. reflexivity. Qed.

Lemma download_first_working_witness :
  NoDup ["missing/bge-base-en"; "Qdrant/fast-bge-base-en"] /\
  EmbeddingMethods.download_from_sources ModelSamples.network
    ["missing/bge-base-en"; "Qdrant/fast-bge-base-en"]
  = EmbeddingMethods.Returned "/cache/models--Qdrant--fast-bge-base-en".
Proof.
  assert (NoDup ["missing/bge-base-en"; "Qdrant/fast-bge-base-en"]) as Hnd.
  { apply NoDup_cons. split; [|apply NoDup_singleton].
    by intros ?%list_elem_of_singleton. }
  split; [exact Hnd|].
  apply (download_first_working ModelSamples.network _ 1
           "Qdrant/fast-bge-base-en" _ Hnd eq_refl eq_refl).
  intros [|j] r Hj Hr; [|lia]. injection Hr as <-. by eexists.
Defined.

Lemma download_stops_at_last_id_witness :
  ["missing/bge-base-en"; "Qdrant/fast-bge-base-en"; "missing/bge-base-en"]
    !! 0 = Some "missing/bge-base-en" /\
  last ["missing/bge-base-en"; "Qdrant/fast-bge-base-en"; "missing/bge-base-en"]
  = Some "missing/bge-base-en" /\
  ModelSamples.network 1 "Qdrant/fast-bge-base-en"
  = EmbeddingMethods.Downloaded "/cache/models--Qdrant--fast-bge-base-en" /\
  EmbeddingMethods.download_from_sources ModelSamples.network
    ["missing/bge-base-en"; "Qdrant/fast-bge-base-en"; "missing/bge-base-en"]
  = EmbeddingMethods.RaisedCaught "RepositoryNotFoundError".
Proof.
  split; [reflexivity|]. split; [reflexivity|]. split; [reflexivity|].
  apply (download_stops_at_last_id ModelSamples.network
           ["missing/bge-base-en"; "Qdrant/fast-bge-base-en";
            "missing/bge-base-en"] 0
           "missing/bge-base-en" "RepositoryNotFoundError"
           eq_refl eq_refl eq_refl).
  intros j r Hj. lia.
Defined.

(** ** The model registries *)

Section RegistryFacts.
Import Registry.
Context {C : Type}.
Variable lower : string -> string.
Variable supported : C -> list string.

Lemma supports_listed model_name (c : C) :
  supports lower supported model_name c = true
  <-> exists m, m ∈ supported c /\ lower model_name = lower m.
Proof.
  unfold supports. rewrite existsb_exists. split.
  - intros (m & Hin & Heq). exists m. split; [by apply list_elem_of_In|].
    by apply String.eqb_eq.
  - intros (m & Hin & Heq). exists m. split; [by apply list_elem_of_In|].
    by apply String.eqb_eq.
Qed.

Lemma list_supported_models_elem (registry : list C) m :
  m ∈ list_supported_models supported registry
  <-> exists c, c ∈ registry /\ m ∈ supported c.
Proof.
  induction registry as [|c rest IH]; simpl.
  - split; [by intros ?%elem_of_nil|by intros (c & ?%elem_of_nil & _)].
  - rewrite elem_of_app, IH. split.
    + intros [Hm|(c' & Hc' & Hm)]; [exists c|exists c'];
        (split; [|done]); [by left|by right].
    + intros (c' & [->|Hc']%elem_of_cons & Hm); [by left|right; eauto].
Qed.

(** X29. The constructor accepts a model name exactly when
    [list_supported_models] lists a name that is equal to it up to case;
    the class it takes is then the first of the registry that lists such a
    name. *)
Theorem registry_init_listed (registry : list C) (model_name : string) :
  ((exists c, init lower supported registry model_name = inr c)
   <-> exists m, m ∈ list_supported_models supported registry /\
                 lower model_name = lower m) /\
  (forall c, init lower supported registry model_name = inr c ->
     exists i, registry !! i = Some c /\
       supports lower supported model_name c = true /\
       forall j c', j < i -> registry !! j = Some c' ->
         supports lower supported model_name c' = false) /\
  ((forall m, m ∈ list_supported_models supported registry ->
              lower model_name <> lower m) ->
   init lower supported registry model_name = inl EmbeddingMethods.ValueErrorExc).
Proof.
  assert (forall c, init lower supported registry model_name = inr c ->
     exists i, registry !! i = Some c /\
       supports lower supported model_name c = true /\
       forall j c', j < i -> registry !! j = Some c' ->
         supports lower supported model_name c' = false) as Hfirst.
  { induction registry as [|c0 rest IH]; intros c; simpl; [done|].
    destruct (supports lower supported model_name c0) eqn:Hc0.
    - intros [= <-]. exists 0. split; [done|]. split; [done|]. intros; lia.
    - intros Hc. destruct (IH c Hc) as (i & Hi & Hs & Hbefore).
      exists (S i). split; [done|]. split; [done|].
      intros [|j] c' Hj Hc'; simpl in Hc'; [congruence|].
      apply (Hbefore j); [lia|done]. }
  assert ((forall m, m ∈ list_supported_models supported registry ->
              lower model_name <> lower m) ->
          init lower supported registry model_name
          = inl EmbeddingMethods.ValueErrorExc) as Hnone.
  { induction registry as [|c0 rest IH]; simpl; [done|]. intros Hno.
    destruct (supports lower supported model_name c0) eqn:Hc0.
    - apply supports_listed in Hc0 as (m & Hm & Heq).
      destruct (Hno m); [|done]. apply elem_of_app. by left.
    - apply IH.
      + intros c Hc. destruct (Hfirst c) as (i & Hi & Hs & Hb).
        { simpl. by rewrite Hc0. }
        destruct i as [|i]; simpl in Hi; [congruence|].
        exists i. split; [done|]. split; [done|].
        intros j c' Hj Hc'. apply (Hb (S j)); [lia|done].
      + intros m Hm. apply Hno. apply elem_of_app. by right. }
  split; [|split; [exact Hfirst|exact Hnone]].
  split.
  - intros [c Hc]. destruct (Hfirst c Hc) as (i & Hi & Hs & _).
    apply supports_listed in Hs as (m & Hm & Heq). exists m. split; [|done].
    apply list_supported_models_elem. exists c. split; [|done].
    by eapply list_elem_of_lookup_2.
  - intros (m & Hm & Heq).
    destruct (init lower supported registry model_name) as [e|c] eqn:Hinit;
      [|eauto].
    exfalso. clear Hfirst Hnone.
    apply list_supported_models_elem in Hm as (c & Hc & Hm).
    induction registry as [|c0 rest IH]; simpl in *; [by apply elem_of_nil in Hc|].
    destruct (supports lower supported model_name c0) eqn:Hc0; [done|].
    apply elem_of_cons in Hc as [->|Hc]; [|by apply IH].
    assert (supports lower supported model_name c0 = true); [|congruence].
    apply supports_listed. eauto.
Qed.

(** [MultiTaskTextEmbedding] has an empty registry: it lists no model,
    and its constructor raises [ValueError] for every model name. *)
Theorem multi_task_never_constructed (model_name : string) :
  list_supported_models supported MultiTask_registry = [] /\
  init lower supported MultiTask_registry model_name
  = inl EmbeddingMethods.ValueErrorExc.
Proof. done. Qed.

End RegistryFacts.
